(** * Set Layer Pivots at the Center of Drawings: a shallow embedding

    The script [ANM_Set_Layer_Pivots_At_Center_Of_Drawings.js] runs inside an
    animation host and talks to it through the host's scripting objects
    ([selection], [node], [frame], [Drawing.query], [scene], [MessageBox],
    [MessageLog]).  The embedding keeps that shape:

    - JavaScript numbers are IEEE 754 binary64 values, modelled by
      [spec_float] with precision 53 and maximal exponent 1024;
    - node references are strings (the empty string is the host's "no node");
    - the host's read-only services are the fields of the record [Host];
    - the script's effects are the calls it makes to the host's mutating or
      reporting entry points; they are recorded, in order, as [Event]s, and
      the text attributes it writes are kept in a finite map. *)

From Stdlib Require Import ZArith List String Bool Lia Permutation DecimalString.
From Corelib Require Import SpecFloat.
From stdpp Require Import gmap strings list.

Local Open Scope string_scope.
Local Open Scope list_scope.
Local Open Scope Z_scope.

(** ** JavaScript numbers *)

Module JsNumber.

Definition number : Type := spec_float.

Definition prec : Z := 53.
Definition emax : Z := 1024.

(** An integer literal of the source, as the double it denotes. *)
Definition of_Z (z : Z) : number := binary_normalize prec emax z 0 false.

Definition zero : number := S754_zero false.
Definition one : number := of_Z 1.
(** The literal [0.5]. *)
Definition half : number := binary_normalize prec emax 1 (-1) false.
Definition infinity : number := S754_infinity false.
Definition neg_infinity : number := S754_infinity true.

Definition add (a b : number) : number := SFadd prec emax a b.
Definition sub (a b : number) : number := SFsub prec emax a b.
Definition mul (a b : number) : number := SFmul prec emax a b.
Definition div (a b : number) : number := SFdiv prec emax a b.

Definition isNaN (a : number) : bool :=
  match a with S754_nan => true | _ => false end.

Definition is_pos_zero (a : number) : bool :=
  match a with S754_zero false => true | _ => false end.

Definition is_neg_zero (a : number) : bool :=
  match a with S754_zero true => true | _ => false end.

(** [a < b] and [a <= b] of the language: false as soon as one side is NaN. *)
Definition lt (a b : number) : bool := SFltb a b.
Definition le (a b : number) : bool := SFleb a b.

(** [a !== b] on numbers: the negation of IEEE equality, so [NaN !== b]
    holds and [-0 !== 0] does not. *)
Definition strict_neq (a b : number) : bool := negb (SFeqb a b).

(** [Math.min(a, b)]: NaN if an argument is NaN, [-0] below [+0], otherwise
    the smaller argument. *)
Definition Math_min (a b : number) : number :=
  if isNaN a || isNaN b then S754_nan
  else if is_neg_zero b && is_pos_zero a then b
  else if lt b a then b else a.

(** [Math.max(a, b)], symmetrically. *)
Definition Math_max (a b : number) : number :=
  if isNaN a || isNaN b then S754_nan
  else if is_pos_zero b && is_neg_zero a then b
  else if lt a b then b else a.

(** [Math.min(...l)] and [Math.max(...l)] over a whole list: the language
    starts from [+Infinity] (resp. [-Infinity]) and folds from the left. *)
Definition Math_min_list (l : list number) : number := fold_left Math_min l infinity.
Definition Math_max_list (l : list number) : number := fold_left Math_max l neg_infinity.

End JsNumber.

Import JsNumber.

(** [Point2d(x, y)] of the host. *)
Record Point2d : Type := mkPoint2d { pt_x : number; pt_y : number }.

(** What [Drawing.query.getBox] answers: [false], an object with an ["empty"]
    key, or an object with the four bounds [x0], [y0], [x1], [y1]. *)
Inductive BoxResult : Type :=
| BoxFalse
| BoxEmpty
| Box (x0 y0 x1 y1 : number).

(** The text attributes the script writes, keyed by node and attribute name. *)
Abbreviation AttrStore := (gmap (string * string) number).

(** ** The host, as the script sees it

    The only mutation the script performs is [node.setTextAttr] on the
    attributes [pivot.x] and [pivot.y].  Of the queries below, the resolved
    pivot [node.getPivot] is the one that depends on these attributes, so it
    takes the written attributes as an argument; the others (node types,
    links, sub-nodes, [canAnimate], [useDrawingPivot], artwork boxes) are
    read-only. *)

Record Host : Type := mkHost {
  (** [selection.selectedNodes()] *)
  selection_selectedNodes : list string;
  (** [node.type(n)] *)
  node_type : string -> string;
  (** [node.subNodes(n)] *)
  node_subNodes : string -> list string;
  (** [node.numberOfSubNodes(n)] *)
  node_numberOfSubNodes : string -> nat;
  (** [node.parentNode(n)] *)
  node_parentNode : string -> string;
  (** [node.srcNode(n, port)] *)
  node_srcNode : string -> nat -> string;
  (** [node.getAttr(n, frame, name).boolValue()] *)
  node_getAttr_boolValue : string -> Z -> string -> bool;
  (** [node.getTextAttr(n, frame, name)] *)
  node_getTextAttr : string -> Z -> string -> string;
  (** [frame.current()] *)
  frame_current : Z;
  (** [Drawing.query.getBox({drawing: {node: n, frame: fr}, art: at})] *)
  Drawing_query_getBox : string -> Z -> nat -> BoxResult;
  (** [node.getPivot(n, fr)]; it depends on the pivot attributes written so far. *)
  node_getPivot : AttrStore -> string -> Z -> Point2d;
  (** [scene.toOGLX], [scene.toOGLY], [scene.fromOGLX], [scene.fromOGLY] *)
  scene_toOGLX : number -> number;
  scene_toOGLY : number -> number;
  scene_fromOGLX : number -> number;
  scene_fromOGLY : number -> number;
  (** [parseFloat(v.toFixed(20))] of the language runtime. *)
  parseFloat_toFixed20 : number -> number
}.

(** ** Effects *)

Inductive Event : Type :=
| MessageBox_information (msg : string)
| MessageLog_trace (msg : string)
| scene_beginUndoRedoAccum (name : string)
| scene_endUndoRedoAccum (name : string)
| node_setTextAttr (n attr : string) (atFrame : Z) (value : number).

Record State : Type := mkState {
  st_attrs : AttrStore;
  st_events : list Event
}.

Definition emit (e : Event) (s : State) : State :=
  {| st_attrs := st_attrs s; st_events := st_events s ++ [e] |}.

Definition setTextAttr (n attr : string) (atFrame : Z) (value : number) (s : State) : State :=
  {| st_attrs := <[(n, attr) := value]> (st_attrs s);
     st_events := st_events s ++ [node_setTextAttr n attr atFrame value] |}.

Definition trace (msg : string) (s : State) : State := emit (MessageLog_trace msg) s.

Notation "a === b" := (String.eqb a b) (at level 70, no associativity).

(** [ToString] of an integer-valued number, as used by [+] on a string. *)
Definition string_of_frame (fr : Z) : string := NilZero.string_of_int (Z.to_int fr).

Definition msg_select : string :=
  "Please select at least one drawing node before running this script." +:+
  String (Ascii.ascii_of_nat 10) "You can also select a group that contain multiple drawing nodes.".

Definition msg_no_peg (curDrawing : string) : string :=
  curDrawing +:+ " is not animatable, and it does not have a parent peg to set its pivot position.".

Definition msg_empty (curDrawing : string) (fr : Z) : string :=
  curDrawing +:+ " is empty at frame " +:+ string_of_frame fr +:+ ". Unable to set its layer pivot.".

Definition undo_name : string := "Set layer pivot(s) at the center of drawing(s)".

Definition PARENT_PEG : string := "Apply Embedded Pivot on Parent Peg".
Definition DRAWING_LAYER : string := "Apply Embedded Pivot on Drawing Layer".

Section Script.

Variable h : Host.

(** *** Helper functions of the script *)

(** The [for] loop of [getDrawings]: [drawingList] is the array being filled,
    [recur] the recursive call on a group's sub-nodes. *)
Fixpoint getDrawings_loop (recur : list string -> option (list string))
    (nodeList drawingList : list string) : option (list string) :=
  match nodeList with
  | [] => Some drawingList
  | curNode :: rest =>
      if node_type h curNode === "READ" then
        getDrawings_loop recur rest (drawingList ++ [curNode])
      else if node_type h curNode === "GROUP" then
        match recur (node_subNodes h curNode) with
        | Some subDrawingList => getDrawings_loop recur rest (drawingList ++ subDrawingList)
        | None => None
        end
      else getDrawings_loop recur rest drawingList
  end.

(** [getDrawings(nodeList)]; [fuel] bounds the depth of nested calls, and
    [None] means the bound was reached. *)
Fixpoint getDrawings (fuel : nat) (nodeList : list string) : option (list string) :=
  match fuel with
  | O => None
  | S fuel' => getDrawings_loop (getDrawings fuel') nodeList []
  end.

(** The [for] loop of [traverseChainUpToFindPeg]: [n] iterations are left.
    The second component lists the nodes the loop looked at, in order. *)
Fixpoint traverse_loop (n : nat) (src : string) : string * list string :=
  match n with
  | O => ("", [])
  | S n' =>
      if src === "" then ("", [src])
      else if node_type h src === "PEG" then (src, [src])
      else
        let '(r, seen) := traverse_loop n' (node_srcNode h src 0) in
        (r, src :: seen)
  end.

Definition traverseChainUpToFindPeg_seen (lastNode : string) : string * list string :=
  let numSubNodes := node_numberOfSubNodes h (node_parentNode h lastNode) in
  let src := node_srcNode h lastNode 0 in
  traverse_loop numSubNodes src.

Definition traverseChainUpToFindPeg (lastNode : string) : string :=
  fst (traverseChainUpToFindPeg_seen lastNode).

Definition midPointAt (p1 p2 : Point2d) (t : number) : Point2d :=
  let x := add (mul (pt_x p1) (sub one t)) (mul (pt_x p2) t) in
  let y := add (mul (pt_y p1) (sub one t)) (mul (pt_y p2) t) in
  mkPoint2d (parseFloat_toFixed20 h x) (parseFloat_toFixed20 h y).

Definition subtractBFromA (p3d_A p3d_B : Point2d) : Point2d :=
  mkPoint2d (sub (pt_x p3d_A) (pt_x p3d_B)) (sub (pt_y p3d_A) (pt_y p3d_B)).

(** *** The body of the main loop *)

(** Lines 59-60: the two attributes read from the drawing. *)
Definition canAnimate (curDrawing : string) : bool :=
  node_getAttr_boolValue h curDrawing 1 "canAnimate".

Definition useDrawingPivot (curDrawing : string) : string :=
  node_getTextAttr h curDrawing 1 "useDrawingPivot".

(** The condition of line 66: the pivot goes to the parent peg. *)
Definition onParentPeg (boolAnimatable : bool) (embeddedPivotOption : string) : bool :=
  negb boolAnimatable || (boolAnimatable && (embeddedPivotOption === PARENT_PEG)).

(** Lines 58-83: the node that receives the pivot, or [None] on the two
    paths that log and [continue]. *)
Definition resolvePivotNode (curDrawing : string) : option string :=
  let pivotNode := curDrawing in
  let boolAnimatable := canAnimate curDrawing in
  let embeddedPivotOption := useDrawingPivot curDrawing in
  if onParentPeg boolAnimatable embeddedPivotOption then
    let pivotNode := node_srcNode h curDrawing 0 in
    if pivotNode === "" then None
    else if negb (node_type h pivotNode === "PEG") then
      let pivotNode := traverseChainUpToFindPeg pivotNode in
      if pivotNode === "" then None else Some pivotNode
    else Some pivotNode
  else Some pivotNode.

(** The constant of lines 99-109. *)
Definition c1875 : number := of_Z 1875.

(** One turn of the loop of lines 90-111.  [corners] is [None] while
    [corners[0]] has no ["x"] key. *)
Definition corners_step (corners : option (Point2d * Point2d)) (box : BoxResult)
    : option (Point2d * Point2d) :=
  match box with
  | BoxFalse | BoxEmpty => corners
  | Box x0 y0 x1 y1 =>
      match corners with
      | None =>
          Some (mkPoint2d (div x0 c1875) (div y0 c1875),
                mkPoint2d (div x1 c1875) (div y1 c1875))
      | Some (c0, c1) =>
          Some (mkPoint2d (Math_min (div x0 c1875) (pt_x c0)) (Math_min (div y0 c1875) (pt_y c0)),
                mkPoint2d (Math_max (div x1 c1875) (pt_x c1)) (Math_max (div y1 c1875) (pt_y c1)))
      end
  end.

(** The loop of lines 90-111 over the art layers [arts], in that order. *)
Definition cornersOver (arts : list nat) (curDrawing : string) (fr : Z)
    : option (Point2d * Point2d) :=
  fold_left (fun corners at_ => corners_step corners (Drawing_query_getBox h curDrawing fr at_))
            arts None.

(** [for (var at = 0; at < 4; at++)] *)
Definition art_layers : list nat := [0; 1; 2; 3]%nat.

(** Lines 119-122, over the art layers [arts]. *)
Definition centerOver (arts : list nat) (curDrawing : string) (fr : Z) : option Point2d :=
  match cornersOver arts curDrawing fr with
  | None => None
  | Some (c0, c1) =>
      let btmL_local_OGL := mkPoint2d (pt_x c0) (pt_y c0) in
      let topR_local_OGL := mkPoint2d (pt_x c1) (pt_y c1) in
      Some (midPointAt btmL_local_OGL topR_local_OGL half)
  end.

(** The condition of lines 128-129. *)
Definition needsInverse (curDrawing pivotNode embeddedPivotOption : string) : bool :=
  (negb (curDrawing === pivotNode) && (embeddedPivotOption === PARENT_PEG))
  || ((curDrawing === pivotNode) && (embeddedPivotOption === DRAWING_LAYER)).

(** Lines 128-141: the state and the centre after the optional inversion. *)
Definition inverseDrawingPivot (curDrawing pivotNode embeddedPivotOption : string) (fr : Z)
    (center_local_OGL : Point2d) (s : State) : State * Point2d :=
  if needsInverse curDrawing pivotNode embeddedPivotOption then
    let s := setTextAttr pivotNode "pivot.x" 1 zero s in
    let s := setTextAttr pivotNode "pivot.y" 1 zero s in
    let drawPivot := node_getPivot h (st_attrs s) pivotNode fr in
    if strict_neq (pt_x drawPivot) zero || strict_neq (pt_y drawPivot) zero then
      let drawPivot_local_OGL :=
        mkPoint2d (scene_toOGLX h (pt_x drawPivot)) (scene_toOGLY h (pt_y drawPivot)) in
      (s, subtractBFromA center_local_OGL drawPivot_local_OGL)
    else (s, center_local_OGL)
  else (s, center_local_OGL).

(** Lines 145-146. *)
Definition writePivot (pivotNode : string) (center_local_OGL : Point2d) (s : State) : State :=
  let s := setTextAttr pivotNode "pivot.x" 1 (scene_fromOGLX h (pt_x center_local_OGL)) s in
  setTextAttr pivotNode "pivot.y" 1 (scene_fromOGLY h (pt_y center_local_OGL)) s.

(** One turn of the loop of lines 55-147. *)
Definition processDrawing (s : State) (curDrawing : string) : State :=
  match resolvePivotNode curDrawing with
  | None => trace (msg_no_peg curDrawing) s
  | Some pivotNode =>
      let fr := frame_current h in
      match centerOver art_layers curDrawing fr with
      | None => trace (msg_empty curDrawing fr) s
      | Some center_local_OGL =>
          let '(s, center_local_OGL) :=
            inverseDrawingPivot curDrawing pivotNode (useDrawingPivot curDrawing) fr
                                center_local_OGL s in
          writePivot pivotNode center_local_OGL s
      end
  end.

(** The entry point.  [None] only when [getDrawings] ran out of [fuel]. *)
Definition ANM_Set_Layer_Pivots_At_Center_Of_Drawings (fuel : nat) (s : State) : option State :=
  match getDrawings fuel (selection_selectedNodes h) with
  | None => None
  | Some sNodes =>
      if (length sNodes =? 0)%nat then Some (emit (MessageBox_information msg_select) s)
      else
        let s := emit (scene_beginUndoRedoAccum undo_name) s in
        let s := fold_left processDrawing sNodes s in
        Some (emit (scene_endUndoRedoAccum "") s)
  end.

End Script.

(** ** Vocabulary of the specification *)

(** The effect of an event on the written attributes. *)
Definition applyEvent (m : AttrStore) (e : Event) : AttrStore :=
  match e with
  | node_setTextAttr n attr _ value => <[(n, attr) := value]> m
  | _ => m
  end.

Definition replay (evs : list Event) (m : AttrStore) : AttrStore :=
  fold_left applyEvent evs m.

(** The two calls of lines 145-146 (and of lines 131-132). *)
Definition pivotWrites (p : string) (vx vy : number) : list Event :=
  [node_setTextAttr p "pivot.x" 1 vx; node_setTextAttr p "pivot.y" 1 vy].

(** Every attribute write among [evs] is on node [p]. *)
Definition writesOnlyTo (p : string) (evs : list Event) : Prop :=
  forall n attr fr v, In (node_setTextAttr n attr fr v) evs -> n = p.

(** [evs] has no attribute write at all. *)
Definition noWrites (evs : list Event) : Prop :=
  forall n attr fr v, ~ In (node_setTextAttr n attr fr v) evs.

(** [evs] ends with the pivot of [p] being written. *)
Definition pivotWritten (p : string) (evs : list Event) : Prop :=
  exists pre vx vy, evs = pre ++ pivotWrites p vx vy.

(** [s'] is [s] after the events [evs]. *)
Definition extends (s : State) (evs : list Event) (s' : State) : Prop :=
  st_events s' = st_events s ++ evs /\ st_attrs s' = replay evs (st_attrs s).

Section Vocabulary.

Variable h : Host.

(** One coordinate of every non-empty art layer among [arts], converted by
    the division by 1875, in the order of [arts]. *)
Definition layerCoords (pick : number -> number -> number -> number -> number)
    (arts : list nat) (d : string) (fr : Z) : list number :=
  flat_map (fun at_ =>
              match Drawing_query_getBox h d fr at_ with
              | Box x0 y0 x1 y1 => [div (pick x0 y0 x1 y1) c1875]
              | _ => []
              end) arts.

Definition pick_x0 (x0 y0 x1 y1 : number) : number := x0.
Definition pick_y0 (x0 y0 x1 y1 : number) : number := y0.
Definition pick_x1 (x0 y0 x1 y1 : number) : number := x1.
Definition pick_y1 (x0 y0 x1 y1 : number) : number := y1.

(** The minimum of the bottom-left corners and the maximum of the top-right
    corners of the non-empty layers among [arts]. *)
Definition extremeCorners (arts : list nat) (d : string) (fr : Z) : Point2d * Point2d :=
  (mkPoint2d (Math_min_list (layerCoords pick_x0 arts d fr))
             (Math_min_list (layerCoords pick_y0 arts d fr)),
   mkPoint2d (Math_max_list (layerCoords pick_x1 arts d fr))
             (Math_max_list (layerCoords pick_y1 arts d fr))).

Definition NaN_free (l : list number) : Prop := forall v, In v l -> isNaN v = false.

(** [m] is a member of [l] below (resp. above) every member of [l]. *)
Definition least (m : number) (l : list number) : Prop :=
  In m l /\ forall v, In v l -> le m v = true.

Definition greatest (m : number) (l : list number) : Prop :=
  In m l /\ forall v, In v l -> le v m = true.

(** The centre after lines 128-141, when the inversion applies, given the
    attributes [m] already written. *)
Definition inversedCenter (p : string) (c : Point2d) (m : AttrStore) : Point2d :=
  let drawPivot :=
    node_getPivot h (<[(p, "pivot.y") := zero]> (<[(p, "pivot.x") := zero]> m)) p (frame_current h) in
  if strict_neq (pt_x drawPivot) zero || strict_neq (pt_y drawPivot) zero
  then subtractBFromA c (mkPoint2d (scene_toOGLX h (pt_x drawPivot))
                                   (scene_toOGLY h (pt_y drawPivot)))
  else c.

(** The four shapes of what one drawing contributes to the event list. *)
Inductive drawingBlock (d : string) (m : AttrStore) : list Event -> Prop :=
| block_no_peg :
    resolvePivotNode h d = None ->
    drawingBlock d m [MessageLog_trace (msg_no_peg d)]
| block_empty p :
    resolvePivotNode h d = Some p ->
    centerOver h art_layers d (frame_current h) = None ->
    drawingBlock d m [MessageLog_trace (msg_empty d (frame_current h))]
| block_plain p c :
    resolvePivotNode h d = Some p ->
    centerOver h art_layers d (frame_current h) = Some c ->
    needsInverse d p (useDrawingPivot h d) = false ->
    drawingBlock d m (pivotWrites p (scene_fromOGLX h (pt_x c)) (scene_fromOGLY h (pt_y c)))
| block_inverse p c :
    resolvePivotNode h d = Some p ->
    centerOver h art_layers d (frame_current h) = Some c ->
    needsInverse d p (useDrawingPivot h d) = true ->
    drawingBlock d m
      (pivotWrites p zero zero ++
       pivotWrites p (scene_fromOGLX h (pt_x (inversedCenter p c m)))
                     (scene_fromOGLY h (pt_y (inversedCenter p c m)))).

(** The node connected to the first input port of [n]. *)
Definition upstream (n : string) : string := node_srcNode h n 0.

(** The [k]-th node upstream of [n]; [chain n 0] is [n] itself. *)
Definition chain (n : string) (k : nat) : string := Nat.iter k upstream n.

(** A node the search walks past: a real node that is not a peg. *)
Definition skipped (n : string) : Prop := n <> "" /\ node_type h n <> "PEG".

(** [p] is the first peg on the chain of source links above [d]: it is
    [S k] links up, and the [k] nodes between are real nodes, none a peg. *)
Definition nearestPegAt (d p : string) (k : nat) : Prop :=
  chain d (S k) = p /\ p <> "" /\ node_type h p = "PEG"
  /\ forall i, (i < k)%nat -> skipped (chain d (S i)).

Definition nearestPeg (d p : string) : Prop := exists k, nearestPegAt d p k.

(** Some art layer of [d] has a non-empty box at the current frame. *)
Definition hasBox (d : string) : Prop :=
  exists at_ x0 y0 x1 y1,
    In at_ art_layers /\ Drawing_query_getBox h d (frame_current h) at_ = Box x0 y0 x1 y1.

(** All four art layers of [d] answer [false] or "empty". *)
Definition allEmpty (d : string) : Prop :=
  forall at_, In at_ art_layers ->
    Drawing_query_getBox h d (frame_current h) at_ = BoxFalse
    \/ Drawing_query_getBox h d (frame_current h) at_ = BoxEmpty.

(** The bound of the helper's loop for drawing [d]: the number of sub-nodes
    of the parent of the node connected to [d]. *)
Definition searchBound (d : string) : nat :=
  node_numberOfSubNodes h (node_parentNode h (upstream d)).

(** The flattened list of drawings of a list of nodes, in the words of the
    specification: a drawing node is kept, a group node is replaced by the
    flattened list of its sub-nodes, any other node is dropped, and the
    order is that of the list. *)
Inductive expands : list string -> list string -> Prop :=
| expands_nil : expands [] []
| expands_drawing n l r :
    node_type h n = "READ" -> expands l r -> expands (n :: l) (n :: r)
| expands_group n l sub r :
    node_type h n <> "READ" -> node_type h n = "GROUP" ->
    expands (node_subNodes h n) sub -> expands l r -> expands (n :: l) (sub ++ r)
| expands_other n l r :
    node_type h n <> "READ" -> node_type h n <> "GROUP" ->
    expands l r -> expands (n :: l) r.

End Vocabulary.

(** ** Vocabulary for the run as a whole *)

(** [isFinite(a)]: neither NaN nor an infinity. *)
Definition isFinite (a : number) : bool :=
  match a with S754_zero _ | S754_finite _ _ _ => true | _ => false end.

Definition isTrace (e : Event) : bool :=
  match e with MessageLog_trace _ => true | _ => false end.

Definition isSetTextAttr (e : Event) : bool :=
  match e with node_setTextAttr _ _ _ _ => true | _ => false end.

(** The numbers of log lines and of attribute writes among [evs]. *)
Definition countTraces (evs : list Event) : nat := length (List.filter isTrace evs).
Definition countSetTextAttr (evs : list Event) : nat := length (List.filter isSetTextAttr evs).

(** Attribute writes, as keys and values, applied in order. *)
Definition applyWrites (ws : list ((string * string) * number)) (m : AttrStore) : AttrStore :=
  fold_left (fun m' kv => <[fst kv := snd kv]> m') ws m.

(** The value the writes [ws] leave under key [k], if one of them is on [k]. *)
Fixpoint lastWrite (k : string * string) (ws : list ((string * string) * number))
    : option number :=
  match ws with
  | [] => None
  | (k', v) :: ws' =>
      match lastWrite k ws' with
      | Some v' => Some v'
      | None => if decide (k' = k) then Some v else None
      end
  end.

Section RunVocabulary.

Variable h : Host.

(** The drawing gets a pivot: a target is resolved and a layer has a box. *)
Definition written (d : string) : bool :=
  match resolvePivotNode h d, centerOver h art_layers d (frame_current h) with
  | Some _, Some _ => true
  | _, _ => false
  end.

(** The drawing gets a pivot and the inversion of lines 128-141 applies. *)
Definition inverted (d : string) : bool :=
  match resolvePivotNode h d, centerOver h art_layers d (frame_current h) with
  | Some p, Some _ => needsInverse d p (useDrawingPivot h d)
  | _, _ => false
  end.

(** The centre written for [d] on target [p], when the resolved pivot is
    read on a store where nothing but the reset has been written. *)
Definition finalCenter (d p : string) (c : Point2d) : Point2d :=
  if needsInverse d p (useDrawingPivot h d) then inversedCenter h p c ∅ else c.

(** What the turn of [d] writes, as keys and values: nothing when [d] gets
    no pivot, else [pivot.x] and [pivot.y] of the target. *)
Definition turnWrites (d : string) : list ((string * string) * number) :=
  match resolvePivotNode h d, centerOver h art_layers d (frame_current h) with
  | Some p, Some c =>
      [((p, "pivot.x"), scene_fromOGLX h (pt_x (finalCenter d p c)));
       ((p, "pivot.y"), scene_fromOGLY h (pt_y (finalCenter d p c)))]
  | _, _ => []
  end.

(** What one entry [n] of the argument of [getDrawings] contributes to the
    result: itself for a drawing, the flattened list of its sub-nodes for a
    group, nothing for another node. *)
Definition entryPart (n : string) (part : list string) : Prop :=
  if node_type h n === "READ" then part = [n]
  else if node_type h n === "GROUP" then expands h (node_subNodes h n) part
  else part = [].

(** The events of a turn that writes centre [c'] on target [p], with the
    reset first when the inversion applies. *)
Definition turnEvents (d p : string) (c' : Point2d) : list Event :=
  (if needsInverse d p (useDrawingPivot h d) then pivotWrites p zero zero else [])
  ++ pivotWrites p (scene_fromOGLX h (pt_x c')) (scene_fromOGLY h (pt_y c')).

(** What the entry point returns when [getDrawings] returns [ds]. *)
Definition runOn (ds : list string) (s : State) : State :=
  match ds with
  | [] => emit (MessageBox_information msg_select) s
  | _ :: _ =>
      emit (scene_endUndoRedoAccum "")
           (fold_left (processDrawing h) ds (emit (scene_beginUndoRedoAccum undo_name) s))
  end.

(** The state in which the main loop reaches the entry of index [i]. *)
Definition stateAt (ds : list string) (s : State) (i : nat) : State :=
  fold_left (processDrawing h) (take i ds) (emit (scene_beginUndoRedoAccum undo_name) s).

(** [d] is a drawing node of the list [l], or of the sub-nodes of a group of
    [l], and so on through nested groups. *)
Inductive inside : list string -> string -> Prop :=
| inside_here l d : In d l -> node_type h d = "READ" -> inside l d
| inside_group l g d :
    In g l -> node_type h g <> "READ" -> node_type h g = "GROUP" ->
    inside (node_subNodes h g) d -> inside l d.

(** The resolved pivot of a node depends on that node's own [pivot.x] and
    [pivot.y] attributes only. *)
Definition pivotIsLocal : Prop :=
  forall (m m' : AttrStore) (n : string) (fr : Z),
    m !! (n, "pivot.x") = m' !! (n, "pivot.x") ->
    m !! (n, "pivot.y") = m' !! (n, "pivot.y") ->
    node_getPivot h m n fr = node_getPivot h m' n fr.

(** Two hosts with the same node types, links and drawing attributes. *)
Definition sameGraph (h' : Host) : Prop :=
  (forall n, node_type h' n = node_type h n)
  /\ (forall n port, node_srcNode h' n port = node_srcNode h n port)
  /\ (forall n fr attr, node_getAttr_boolValue h' n fr attr = node_getAttr_boolValue h n fr attr)
  /\ (forall n fr attr, node_getTextAttr h' n fr attr = node_getTextAttr h n fr attr).

End RunVocabulary.

(** ** A small scene, used to run the definitions *)

Module Demo.

Definition children_of (n : string) : list string :=
  if n === "Top" then
    ["Top/Peg"; "Top/Kin"; "Top/A"; "Top/B"; "Top/E"; "Top/L"; "Top/G"; "Top/Void"]
  else if n === "Top/G" then ["Top/G/D1"; "Top/G/D2"; "Top/G/N"; "Top/G/D3"]
  else if n === "Top/G/N" then ["Top/G/N/D4"; "Top/G/N/D5"]
  else [].

Definition type_of (n : string) : string :=
  if n === "Top" then "GROUP"
  else if n === "Top/G" then "GROUP"
  else if n === "Top/G/N" then "GROUP"
  else if n === "Top/Void" then "GROUP"
  else if n === "Top/Peg" then "PEG"
  else if n === "Top/Kin" then "KinematicOutputModule"
  else if n === "" then ""
  else "READ".

Definition parent_of (n : string) : string :=
  if existsb (String.eqb n) (children_of "Top") then "Top"
  else if existsb (String.eqb n) (children_of "Top/G") then "Top/G"
  else if existsb (String.eqb n) (children_of "Top/G/N") then "Top/G/N"
  else "".

(** [Top/A] and [Top/E] hang under the peg, [Top/B] under a non-peg node
    fed by the peg, [Top/L] has nothing connected to its input port. *)
Definition src_of (n : string) (port : nat) : string :=
  if n === "Top/A" then "Top/Peg"
  else if n === "Top/B" then "Top/Kin"
  else if n === "Top/Kin" then "Top/Peg"
  else if n === "Top/E" then "Top/Peg"
  else "".

Definition can_animate (n : string) (fr : Z) (attr : string) : bool :=
  negb ((n === "Top/B") || (n === "Top/L")).

Definition text_attr (n : string) (fr : Z) (attr : string) : string :=
  if n === "Top/A" then DRAWING_LAYER
  else if n === "Top/B" then PARENT_PEG
  else "Don't Use Embedded Pivot".

(** [Top/A] has artwork on two of its layers; together they span
    (0, 0) .. (37500, 37500) in box units, that is (0, 0) .. (20, 20). *)
Definition box_of (n : string) (fr : Z) (art : nat) : BoxResult :=
  if (n === "Top/A") || (n === "Top/B") then
    match art with
    | 0%nat => BoxFalse
    | 1%nat => Box (of_Z 0) (of_Z 1875) (of_Z 18750) (of_Z 37500)
    | 2%nat => BoxEmpty
    | _ => Box (of_Z 3750) (of_Z 0) (of_Z 37500) (of_Z 3750)
    end
  else BoxEmpty.

Definition attr_or_zero (m : AttrStore) (n attr : string) : number :=
  match m !! (n, attr) with Some v => v | None => zero end.

(** The resolved pivot is the node's pivot attribute plus, for [Top/A], the
    pivot embedded in the drawing, (5, 3). *)
Definition pivot_of (m : AttrStore) (n : string) (fr : Z) : Point2d :=
  if n === "Top/A" then
    mkPoint2d (add (of_Z 5) (attr_or_zero m n "pivot.x")) (add (of_Z 3) (attr_or_zero m n "pivot.y"))
  else mkPoint2d (attr_or_zero m n "pivot.x") (attr_or_zero m n "pivot.y").

Definition host_with (selected : list string) : Host :=
  {| selection_selectedNodes := selected;
     node_type := type_of;
     node_subNodes := children_of;
     node_numberOfSubNodes := fun n => length (children_of n);
     node_parentNode := parent_of;
     node_srcNode := src_of;
     node_getAttr_boolValue := can_animate;
     node_getTextAttr := text_attr;
     frame_current := 12;
     Drawing_query_getBox := box_of;
     node_getPivot := pivot_of;
     scene_toOGLX := fun v => v;
     scene_toOGLY := fun v => v;
     scene_fromOGLX := fun v => v;
     scene_fromOGLY := fun v => v;
     parseFloat_toFixed20 := fun v => v |}.

Definition host : Host := host_with ["Top/A"; "Top/B"; "Top/E"; "Top/L"; "Top/G"].

(** The same scene with the input of [Top/Kin] wired to itself, so that the
    chain above [Top/B] never reaches a peg. *)
Definition cyclic : Host :=
  {| selection_selectedNodes := ["Top/B"];
     node_type := type_of;
     node_subNodes := children_of;
     node_numberOfSubNodes := fun n => length (children_of n);
     node_parentNode := parent_of;
     node_srcNode := fun n port => if n === "Top/Kin" then "Top/Kin" else src_of n port;
     node_getAttr_boolValue := can_animate;
     node_getTextAttr := text_attr;
     frame_current := 12;
     Drawing_query_getBox := box_of;
     node_getPivot := pivot_of;
     scene_toOGLX := fun v => v;
     scene_toOGLY := fun v => v;
     scene_fromOGLX := fun v => v;
     scene_fromOGLY := fun v => v;
     parseFloat_toFixed20 := fun v => v |}.

Definition start : State := {| st_attrs := ∅; st_events := [] |}.

End Demo.

(** The scene again, with every drawing animatable, and with the pivot
    embedded in [Top/B], (2, 4), applied on its parent peg. *)
Module Rig.

Definition pivot_of (m : AttrStore) (n : string) (fr : Z) : Point2d :=
  if n === "Top/Peg" then
    mkPoint2d (add (of_Z 2) (Demo.attr_or_zero m n "pivot.x"))
              (add (of_Z 4) (Demo.attr_or_zero m n "pivot.y"))
  else Demo.pivot_of m n fr.

Definition host : Host :=
  {| selection_selectedNodes := ["Top/B"; "Top/A"];
     node_type := Demo.type_of;
     node_subNodes := Demo.children_of;
     node_numberOfSubNodes := fun n => length (Demo.children_of n);
     node_parentNode := Demo.parent_of;
     node_srcNode := Demo.src_of;
     node_getAttr_boolValue := fun n fr attr => true;
     node_getTextAttr := Demo.text_attr;
     frame_current := 12;
     Drawing_query_getBox := Demo.box_of;
     node_getPivot := pivot_of;
     scene_toOGLX := fun v => v;
     scene_toOGLY := fun v => v;
     scene_fromOGLX := fun v => v;
     scene_fromOGLY := fun v => v;
     parseFloat_toFixed20 := fun v => v |}.

End Rig.

(** The scene again, with [Top/L] connected under the peg and given a box
    spanning (0, 0) .. (2, 2): [Top/B] and [Top/L] now share [Top/Peg]. *)
Module Shared.

Definition src_of (n : string) (port : nat) : string :=
  if n === "Top/L" then "Top/Peg" else Demo.src_of n port.

Definition box_of (n : string) (fr : Z) (art : nat) : BoxResult :=
  if n === "Top/L" then
    match art with
    | 0%nat => Box (of_Z 0) (of_Z 0) (of_Z 3750) (of_Z 3750)
    | _ => BoxEmpty
    end
  else Demo.box_of n fr art.

Definition host : Host :=
  {| selection_selectedNodes := ["Top/B"; "Top/L"];
     node_type := Demo.type_of;
     node_subNodes := Demo.children_of;
     node_numberOfSubNodes := fun n => length (Demo.children_of n);
     node_parentNode := Demo.parent_of;
     node_srcNode := src_of;
     node_getAttr_boolValue := Demo.can_animate;
     node_getTextAttr := Demo.text_attr;
     frame_current := 12;
     Drawing_query_getBox := box_of;
     node_getPivot := Demo.pivot_of;
     scene_toOGLX := fun v => v;
     scene_toOGLY := fun v => v;
     scene_fromOGLX := fun v => v;
     scene_fromOGLY := fun v => v;
     parseFloat_toFixed20 := fun v => v |}.

End Shared.

(** The demonstration scene with every group reporting one sub-node more. *)
Module Wide.

Definition host : Host :=
  {| selection_selectedNodes := selection_selectedNodes Demo.host;
     node_type := Demo.type_of;
     node_subNodes := Demo.children_of;
     node_numberOfSubNodes := fun n => S (length (Demo.children_of n));
     node_parentNode := Demo.parent_of;
     node_srcNode := Demo.src_of;
     node_getAttr_boolValue := Demo.can_animate;
     node_getTextAttr := Demo.text_attr;
     frame_current := 12;
     Drawing_query_getBox := Demo.box_of;
     node_getPivot := Demo.pivot_of;
     scene_toOGLX := fun v => v;
     scene_toOGLY := fun v => v;
     scene_fromOGLX := fun v => v;
     scene_fromOGLY := fun v => v;
     parseFloat_toFixed20 := fun v => v |}.

End Wide.

(** ** Tactics for comparisons of mantissas and exponents *)

Ltac cmp_step :=
  match goal with
  | |- context [Z.compare ?a ?b] => destruct (Z.compare_spec a b); subst; simpl in *
  | |- context [Pos.compare_cont Eq ?a ?b] =>
      change (Pos.compare_cont Eq a b) with (Pos.compare a b) in *;
      destruct (Pos.compare_spec a b); subst; simpl in *
  | H : context [Z.compare ?a ?b] |- _ => destruct (Z.compare_spec a b); subst; simpl in *
  | H : context [Pos.compare_cont Eq ?a ?b] |- _ =>
      change (Pos.compare_cont Eq a b) with (Pos.compare a b) in *;
      destruct (Pos.compare_spec a b); subst; simpl in *
  end.

Ltac cmp_goal := repeat cmp_step; try reflexivity; try lia.
Ltac cmp_all := intros; repeat cmp_step; try reflexivity; try discriminate; try lia.

(** ** The definitions at work *)

Example demo_collects_nine_drawings :
  getDrawings Demo.host 3 (selection_selectedNodes Demo.host)
  = Some ["Top/A"; "Top/B"; "Top/E"; "Top/L"; "Top/G/D1"; "Top/G/D2";
          "Top/G/N/D4"; "Top/G/N/D5"; "Top/G/D3"].
Proof. reflexivity. Qed.

Example demo_fuel_too_small :
  getDrawings Demo.host 2 (selection_selectedNodes Demo.host) = None.
Proof. reflexivity. Qed.

Example demo_run_events :
  option_map st_events
    (ANM_Set_Layer_Pivots_At_Center_Of_Drawings
       (Demo.host_with ["Top/A"; "Top/B"; "Top/E"; "Top/L"]) 1 Demo.start)
  = Some [scene_beginUndoRedoAccum undo_name;
          node_setTextAttr "Top/A" "pivot.x" 1 zero;
          node_setTextAttr "Top/A" "pivot.y" 1 zero;
          node_setTextAttr "Top/A" "pivot.x" 1 (of_Z 5);
          node_setTextAttr "Top/A" "pivot.y" 1 (of_Z 7);
          node_setTextAttr "Top/Peg" "pivot.x" 1 zero;
          node_setTextAttr "Top/Peg" "pivot.y" 1 zero;
          node_setTextAttr "Top/Peg" "pivot.x" 1 (of_Z 10);
          node_setTextAttr "Top/Peg" "pivot.y" 1 (of_Z 10);
          MessageLog_trace "Top/E is empty at frame 12. Unable to set its layer pivot.";
          MessageLog_trace
            "Top/L is not animatable, and it does not have a parent peg to set its pivot position.";
          scene_endUndoRedoAccum ""].
Proof. vm_compute. reflexivity. Qed.

Example demo_peg_above_Top_B :
  traverseChainUpToFindPeg_seen Demo.host "Top/Kin" = ("Top/Peg", ["Top/Peg"]).
Proof. reflexivity. Qed.

(** On a chain that loops, the helper gives up after as many turns as the
    parent group has sub-nodes. *)
Example demo_cycle_is_cut_by_the_bound :
  traverseChainUpToFindPeg_seen Demo.cyclic "Top/Kin" = ("", repeat "Top/Kin" 8)
  /\ resolvePivotNode Demo.cyclic "Top/B" = None.
Proof. split; reflexivity. Qed.

Example Math_min_of_zeros :
  Math_min zero (S754_zero true) = S754_zero true
  /\ Math_min (S754_zero true) zero = S754_zero true
  /\ Math_max zero (S754_zero true) = zero
  /\ Math_min S754_nan one = S754_nan.
Proof. repeat split. Qed.

Example midpoint_of_0_and_20 :
  midPointAt Demo.host (mkPoint2d (of_Z 0) (of_Z 0)) (mkPoint2d (of_Z 20) (of_Z 20)) half
  = mkPoint2d (of_Z 10) (of_Z 10).
Proof. reflexivity. Qed.

(** ** Facts about numbers *)

Section NumberFacts.

Lemma Math_min_comm (a b : number) : Math_min a b = Math_min b a.
Proof.
  destruct a as [[]|[]| |[] m1 e1], b as [[]|[]| |[] m2 e2];
    unfold Math_min, lt, SFltb; simpl; try reflexivity; cmp_goal.
Qed.

Lemma Math_min_assoc (a b c : number) :
  Math_min a (Math_min b c) = Math_min (Math_min a b) c.
Proof.
  destruct a as [[]|[]| |[] m1 e1], b as [[]|[]| |[] m2 e2], c as [[]|[]| |[] m3 e3];
    unfold Math_min, lt, SFltb; simpl; try reflexivity; cmp_goal.
Qed.

Lemma Math_max_comm (a b : number) : Math_max a b = Math_max b a.
Proof.
  destruct a as [[]|[]| |[] m1 e1], b as [[]|[]| |[] m2 e2];
    unfold Math_max, lt, SFltb; simpl; try reflexivity; cmp_goal.
Qed.

Lemma Math_max_assoc (a b c : number) :
  Math_max a (Math_max b c) = Math_max (Math_max a b) c.
Proof.
  destruct a as [[]|[]| |[] m1 e1], b as [[]|[]| |[] m2 e2], c as [[]|[]| |[] m3 e3];
    unfold Math_max, lt, SFltb; simpl; try reflexivity; cmp_goal.
Qed.

Lemma Math_min_infinity (a : number) : Math_min infinity a = a.
Proof. destruct a as [[]|[]| |[] m e]; reflexivity. Qed.

Lemma Math_max_neg_infinity (a : number) : Math_max neg_infinity a = a.
Proof. destruct a as [[]|[]| |[] m e]; reflexivity. Qed.

Lemma Math_min_choice (a b : number) : Math_min a b = a \/ Math_min a b = b.
Proof.
  unfold Math_min.
  destruct a as [[]|[]| |[] m1 e1], b as [[]|[]| |[] m2 e2]; simpl; auto;
    match goal with |- context [lt ?u ?v] => destruct (lt u v); auto end.
Qed.

Lemma Math_max_choice (a b : number) : Math_max a b = a \/ Math_max a b = b.
Proof.
  unfold Math_max.
  destruct a as [[]|[]| |[] m1 e1], b as [[]|[]| |[] m2 e2]; simpl; auto;
    match goal with |- context [lt ?u ?v] => destruct (lt u v); auto end.
Qed.

Lemma isNaN_Math_min (a b : number) : isNaN (Math_min a b) = isNaN a || isNaN b.
Proof.
  destruct (Math_min_choice a b) as [E|E]; unfold Math_min in *;
    destruct (isNaN a) eqn:Ha, (isNaN b) eqn:Hb; simpl in *; try reflexivity;
    rewrite E; assumption.
Qed.

Lemma isNaN_Math_max (a b : number) : isNaN (Math_max a b) = isNaN a || isNaN b.
Proof.
  destruct (Math_max_choice a b) as [E|E]; unfold Math_max in *;
    destruct (isNaN a) eqn:Ha, (isNaN b) eqn:Hb; simpl in *; try reflexivity;
    rewrite E; assumption.
Qed.

Lemma le_refl (a : number) : isNaN a = false -> le a a = true.
Proof.
  destruct a as [[]|[]| |[] m e]; unfold le, SFleb; simpl; try reflexivity;
    try discriminate; intros _; rewrite Z.compare_refl;
    change (Pos.compare_cont Eq m m) with (Pos.compare m m);
    rewrite Pos.compare_refl; reflexivity.
Qed.

Lemma le_trans (a b c : number) : le a b = true -> le b c = true -> le a c = true.
Proof.
  destruct a as [[]|[]| |[] m1 e1], b as [[]|[]| |[] m2 e2], c as [[]|[]| |[] m3 e3];
    unfold le, SFleb; simpl; try reflexivity; try discriminate; cmp_all.
Qed.

Lemma Math_min_le_l (a b : number) :
  isNaN a = false -> isNaN b = false -> le (Math_min a b) a = true.
Proof.
  destruct a as [[]|[]| |[] m1 e1], b as [[]|[]| |[] m2 e2];
    unfold Math_min, le, lt, SFleb, SFltb; simpl; try reflexivity; try discriminate;
    intros _ _; cmp_all.
Qed.

Lemma Math_min_le_r (a b : number) :
  isNaN a = false -> isNaN b = false -> le (Math_min a b) b = true.
Proof. intros Ha Hb. rewrite Math_min_comm. apply Math_min_le_l; assumption. Qed.

Lemma Math_max_ge_l (a b : number) :
  isNaN a = false -> isNaN b = false -> le a (Math_max a b) = true.
Proof.
  destruct a as [[]|[]| |[] m1 e1], b as [[]|[]| |[] m2 e2];
    unfold Math_max, le, lt, SFleb, SFltb; simpl; try reflexivity; try discriminate;
    intros _ _; cmp_all.
Qed.

Lemma Math_max_ge_r (a b : number) :
  isNaN a = false -> isNaN b = false -> le b (Math_max a b) = true.
Proof. intros Ha Hb. rewrite Math_max_comm. apply Math_max_ge_l; assumption. Qed.

End NumberFacts.

(** ** Folding a commutative, associative operation *)

Section FoldCommutative.

Context {A : Type} (op : A -> A -> A).
Hypothesis op_comm : forall a b, op a b = op b a.
Hypothesis op_assoc : forall a b c, op a (op b c) = op (op a b) c.

Lemma fold_left_op_swap (a x y : A) : op (op a x) y = op (op a y) x.
Proof. rewrite <- !op_assoc. f_equal. apply op_comm. Qed.

Lemma fold_left_op_perm (l l' : list A) :
  Permutation l l' -> forall a, fold_left op l a = fold_left op l' a.
Proof.
  induction 1 as [|x l l' _ IH|x y l|l l' l'' _ IH1 _ IH2]; intros a; simpl.
  - reflexivity.
  - apply IH.
  - rewrite fold_left_op_swap. reflexivity.
  - rewrite IH1. apply IH2.
Qed.

Lemma fold_left_op_init (l : list A) (a b : A) :
  fold_left op l (op a b) = op a (fold_left op l b).
Proof.
  revert b. induction l as [|x l IH]; intros b; simpl.
  - reflexivity.
  - rewrite <- op_assoc. apply IH.
Qed.

End FoldCommutative.

Section ListExtremes.

Lemma Math_min_list_cons (x : number) (l : list number) :
  Math_min_list (x :: l) = fold_left Math_min l x.
Proof. unfold Math_min_list. simpl. rewrite Math_min_infinity. reflexivity. Qed.

Lemma Math_max_list_cons (x : number) (l : list number) :
  Math_max_list (x :: l) = fold_left Math_max l x.
Proof. unfold Math_max_list. simpl. rewrite Math_max_neg_infinity. reflexivity. Qed.

Lemma Math_min_list_perm (l l' : list number) :
  Permutation l l' -> Math_min_list l = Math_min_list l'.
Proof.
  intros P. unfold Math_min_list.
  apply (fold_left_op_perm Math_min Math_min_comm Math_min_assoc); assumption.
Qed.

Lemma Math_max_list_perm (l l' : list number) :
  Permutation l l' -> Math_max_list l = Math_max_list l'.
Proof.
  intros P. unfold Math_max_list.
  apply (fold_left_op_perm Math_max Math_max_comm Math_max_assoc); assumption.
Qed.

Lemma fold_Math_min_facts (l : list number) : forall a,
  isNaN a = false -> (forall v, In v l -> isNaN v = false) ->
  let m := fold_left Math_min l a in
  isNaN m = false /\ In m (a :: l) /\ forall v, In v (a :: l) -> le m v = true.
Proof.
  induction l as [|x l IH]; intros a Ha Hl; simpl.
  - split; [assumption|]. split; [left; reflexivity|].
    intros v [<-|[]]. apply le_refl; assumption.
  - assert (Hx : isNaN x = false) by (apply Hl; left; reflexivity).
    assert (Hm : isNaN (Math_min a x) = false)
      by (rewrite isNaN_Math_min, Ha, Hx; reflexivity).
    destruct (IH (Math_min a x) Hm (fun v Hv => Hl v (or_intror Hv))) as (N & I & L).
    simpl in N, I, L. split; [assumption|]. split.
    + destruct I as [I|I]; [|right; right; assumption].
      destruct (Math_min_choice a x) as [E|E]; [left|right; left]; congruence.
    + intros v [<-|[<-|Hv]].
      * eapply le_trans; [apply L; left; reflexivity|]. apply Math_min_le_l; assumption.
      * eapply le_trans; [apply L; left; reflexivity|]. apply Math_min_le_r; assumption.
      * apply L. right. assumption.
Qed.

Lemma fold_Math_max_facts (l : list number) : forall a,
  isNaN a = false -> (forall v, In v l -> isNaN v = false) ->
  let m := fold_left Math_max l a in
  isNaN m = false /\ In m (a :: l) /\ forall v, In v (a :: l) -> le v m = true.
Proof.
  induction l as [|x l IH]; intros a Ha Hl; simpl.
  - split; [assumption|]. split; [left; reflexivity|].
    intros v [<-|[]]. apply le_refl; assumption.
  - assert (Hx : isNaN x = false) by (apply Hl; left; reflexivity).
    assert (Hm : isNaN (Math_max a x) = false)
      by (rewrite isNaN_Math_max, Ha, Hx; reflexivity).
    destruct (IH (Math_max a x) Hm (fun v Hv => Hl v (or_intror Hv))) as (N & I & L).
    simpl in N, I, L. split; [assumption|]. split.
    + destruct I as [I|I]; [|right; right; assumption].
      destruct (Math_max_choice a x) as [E|E]; [left|right; left]; congruence.
    + intros v [<-|[<-|Hv]].
      * eapply le_trans; [|apply L; left; reflexivity]. apply Math_max_ge_l; assumption.
      * eapply le_trans; [|apply L; left; reflexivity]. apply Math_max_ge_r; assumption.
      * apply L. right. assumption.
Qed.

End ListExtremes.

(** ** The bounding box of a drawing *)

Section BoundingBox.

Variable h : Host.

Lemma layerCoords_perm pick (arts arts' : list nat) (d : string) (fr : Z) :
  Permutation arts arts' ->
  Permutation (layerCoords h pick arts d fr) (layerCoords h pick arts' d fr).
Proof. intros P. unfold layerCoords. apply Permutation_flat_map. exact P. Qed.

Lemma layerCoords_length pick pick' (arts : list nat) (d : string) (fr : Z) :
  length (layerCoords h pick arts d fr) = length (layerCoords h pick' arts d fr).
Proof.
  unfold layerCoords. induction arts as [|a arts IH]; simpl; [reflexivity|].
  rewrite !length_app, IH.
  destruct (Drawing_query_getBox h d fr a); reflexivity.
Qed.

Lemma cornersOver_from (arts : list nat) (d : string) (fr : Z) : forall c0 c1,
  fold_left (fun corners at_ => corners_step corners (Drawing_query_getBox h d fr at_))
            arts (Some (c0, c1))
  = Some (mkPoint2d (fold_left Math_min (layerCoords h pick_x0 arts d fr) (pt_x c0))
                    (fold_left Math_min (layerCoords h pick_y0 arts d fr) (pt_y c0)),
          mkPoint2d (fold_left Math_max (layerCoords h pick_x1 arts d fr) (pt_x c1))
                    (fold_left Math_max (layerCoords h pick_y1 arts d fr) (pt_y c1))).
Proof.
  induction arts as [|a arts IH]; intros [ax ay] [bx by_]; simpl.
  - reflexivity.
  - unfold layerCoords in *. simpl.
    destruct (Drawing_query_getBox h d fr a) as [| |x0 y0 x1 y1]; simpl.
    + apply IH.
    + apply IH.
    + rewrite IH. simpl. unfold pick_x0, pick_y0, pick_x1, pick_y1.
      rewrite (Math_min_comm ax), (Math_min_comm ay), (Math_max_comm bx), (Math_max_comm by_).
      reflexivity.
Qed.

Lemma cornersOver_spec (arts : list nat) (d : string) (fr : Z) :
  cornersOver h arts d fr =
  match layerCoords h pick_x0 arts d fr with
  | [] => None
  | _ :: _ => Some (extremeCorners h arts d fr)
  end.
Proof.
  unfold cornersOver, extremeCorners.
  induction arts as [|a arts IH]; simpl.
  - reflexivity.
  - unfold layerCoords in *. simpl.
    destruct (Drawing_query_getBox h d fr a) as [| |x0 y0 x1 y1]; simpl.
    + apply IH.
    + apply IH.
    + rewrite cornersOver_from. simpl.
      rewrite !Math_min_list_cons, !Math_max_list_cons. reflexivity.
Qed.

Lemma layerCoords_nonempty pick (arts : list nat) (d : string) (fr : Z) :
  (exists at_ x0 y0 x1 y1,
      In at_ arts /\ Drawing_query_getBox h d fr at_ = Box x0 y0 x1 y1) ->
  layerCoords h pick arts d fr <> [].
Proof.
  intros (a & x0 & y0 & x1 & y1 & Hin & Hb) E.
  assert (Hv : In (div (pick x0 y0 x1 y1) c1875) (layerCoords h pick arts d fr)).
  { unfold layerCoords. apply in_flat_map. exists a. split; [exact Hin|].
    rewrite Hb. left. reflexivity. }
  rewrite E in Hv. destruct Hv.
Qed.

Lemma layerCoords_empty pick (arts : list nat) (d : string) (fr : Z) :
  (forall at_, In at_ arts ->
     Drawing_query_getBox h d fr at_ = BoxFalse \/ Drawing_query_getBox h d fr at_ = BoxEmpty) ->
  layerCoords h pick arts d fr = [].
Proof.
  unfold layerCoords. induction arts as [|a arts IH]; intros H; simpl; [reflexivity|].
  rewrite IH by (intros; apply H; right; assumption).
  destruct (H a (or_introl eq_refl)) as [-> | ->]; reflexivity.
Qed.

Lemma Math_min_list_least (l : list number) :
  l <> [] -> NaN_free l -> least (Math_min_list l) l.
Proof.
  destruct l as [|x l]; [congruence|]. intros _ Hl.
  rewrite Math_min_list_cons.
  destruct (fold_Math_min_facts l x) as (_ & I & L).
  - apply Hl. left. reflexivity.
  - intros v Hv. apply Hl. right. assumption.
  - split; assumption.
Qed.

Lemma Math_max_list_greatest (l : list number) :
  l <> [] -> NaN_free l -> greatest (Math_max_list l) l.
Proof.
  destruct l as [|x l]; [congruence|]. intros _ Hl.
  rewrite Math_max_list_cons.
  destruct (fold_Math_max_facts l x) as (_ & I & L).
  - apply Hl. left. reflexivity.
  - intros v Hv. apply Hl. right. assumption.
  - split; assumption.
Qed.

Lemma centerOver_perm (arts arts' : list nat) (d : string) (fr : Z) :
  Permutation arts arts' -> centerOver h arts d fr = centerOver h arts' d fr.
Proof.
  intros P. unfold centerOver. rewrite !cornersOver_spec.
  pose proof (Permutation_length (layerCoords_perm pick_x0 _ _ d fr P)) as Hlen.
  unfold extremeCorners.
  rewrite (Math_min_list_perm _ _ (layerCoords_perm pick_x0 _ _ d fr P)).
  rewrite (Math_min_list_perm _ _ (layerCoords_perm pick_y0 _ _ d fr P)).
  rewrite (Math_max_list_perm _ _ (layerCoords_perm pick_x1 _ _ d fr P)).
  rewrite (Math_max_list_perm _ _ (layerCoords_perm pick_y1 _ _ d fr P)).
  destruct (layerCoords h pick_x0 arts d fr), (layerCoords h pick_x0 arts' d fr);
    simpl in Hlen; try discriminate; reflexivity.
Qed.

Lemma centerOver_defined (d : string) (fr : Z) :
  (exists at_ x0 y0 x1 y1,
      In at_ art_layers /\ Drawing_query_getBox h d fr at_ = Box x0 y0 x1 y1) ->
  exists c, centerOver h art_layers d fr = Some c.
Proof.
  intros Hbox. unfold centerOver. rewrite cornersOver_spec.
  pose proof (layerCoords_nonempty pick_x0 art_layers d fr Hbox) as Hne.
  destruct (layerCoords h pick_x0 art_layers d fr); [congruence|].
  destruct (extremeCorners h art_layers d fr) as [c0 c1]. eexists. reflexivity.
Qed.

End BoundingBox.

(** C1. For a drawing with at least one non-empty art layer at the frame,
    the centre computed by the script is [midPointAt] at [t = 0.5] of the
    minimum of the layers' bottom-left corners and the maximum of their
    top-right corners (each coordinate divided by 1875), whatever the order
    [arts] in which the four art layers are visited; and, unless a converted
    coordinate is NaN, these extremes are members of the layers' coordinates
    that bound all of them. *)
Theorem center_is_midpoint_of_extreme_corners
    (h : Host) (d : string) (fr : Z) (arts : list nat) :
  Permutation arts art_layers ->
  (exists at_ x0 y0 x1 y1,
      In at_ art_layers /\ Drawing_query_getBox h d fr at_ = Box x0 y0 x1 y1) ->
  centerOver h arts d fr
  = Some (midPointAt h (fst (extremeCorners h art_layers d fr))
                       (snd (extremeCorners h art_layers d fr)) half)
  /\ centerOver h arts d fr = centerOver h art_layers d fr
  /\ (forall p1 p2,
        midPointAt h p1 p2 half
        = mkPoint2d
            (parseFloat_toFixed20 h (add (mul (pt_x p1) half) (mul (pt_x p2) half)))
            (parseFloat_toFixed20 h (add (mul (pt_y p1) half) (mul (pt_y p2) half))))
  /\ (NaN_free (layerCoords h pick_x0 art_layers d fr) ->
      least (pt_x (fst (extremeCorners h art_layers d fr))) (layerCoords h pick_x0 art_layers d fr))
  /\ (NaN_free (layerCoords h pick_y0 art_layers d fr) ->
      least (pt_y (fst (extremeCorners h art_layers d fr))) (layerCoords h pick_y0 art_layers d fr))
  /\ (NaN_free (layerCoords h pick_x1 art_layers d fr) ->
      greatest (pt_x (snd (extremeCorners h art_layers d fr))) (layerCoords h pick_x1 art_layers d fr))
  /\ (NaN_free (layerCoords h pick_y1 art_layers d fr) ->
      greatest (pt_y (snd (extremeCorners h art_layers d fr))) (layerCoords h pick_y1 art_layers d fr)).
Proof.
  intros P Hbox.
  assert (Hc : centerOver h arts d fr = centerOver h art_layers d fr)
    by (apply centerOver_perm; exact P).
  split; [|split; [exact Hc|split; [intros p1 p2; reflexivity|]]].
  - rewrite Hc. unfold centerOver. rewrite cornersOver_spec.
    pose proof (layerCoords_nonempty h pick_x0 art_layers d fr Hbox) as Hne.
    destruct (layerCoords h pick_x0 art_layers d fr); [congruence|].
    destruct (extremeCorners h art_layers d fr) as [[ax ay] [bx by_]]. reflexivity.
  - unfold extremeCorners; cbn [fst snd pt_x pt_y]. repeat apply conj;
      first [ apply Math_min_list_least | apply Math_max_list_greatest ];
      apply layerCoords_nonempty; exact Hbox.
Qed.

(** The theorem at drawing [Top/A] of the demonstration scene, its art
    layers visited from the last to the first. *)
Lemma center_of_Top_A_in_reverse_order :
  centerOver Demo.host [3; 2; 1; 0]%nat "Top/A" 12 = Some (mkPoint2d (of_Z 10) (of_Z 10))
  /\ centerOver Demo.host [3; 2; 1; 0]%nat "Top/A" 12
     = centerOver Demo.host art_layers "Top/A" 12.
Proof.
  destruct (center_is_midpoint_of_extreme_corners Demo.host "Top/A" 12 [3; 2; 1; 0]%nat)
    as (H1 & H2 & _).
  - exact (Permutation_rev [3; 2; 1; 0]%nat).
  - exists 1%nat, (of_Z 0), (of_Z 1875), (of_Z 18750), (of_Z 37500).
    split; [simpl; auto | reflexivity].
  - split; [rewrite H1; vm_compute; reflexivity | exact H2].
Defined.


(** ** What one turn of the main loop emits *)

Section Blocks.

Variable h : Host.

Lemma extends_refl (s : State) : extends s [] s.
Proof. split; [symmetry; apply app_nil_r | reflexivity]. Qed.

Lemma extends_trans (s s' s'' : State) (evs evs' : list Event) :
  extends s evs s' -> extends s' evs' s'' -> extends s (evs ++ evs') s''.
Proof.
  intros [E A] [E' A']. split.
  - rewrite E', E, app_assoc. reflexivity.
  - rewrite A', A. unfold replay. rewrite fold_left_app. reflexivity.
Qed.

Lemma extends_emit (e : Event) (s : State) :
  (forall n attr fr v, e <> node_setTextAttr n attr fr v) -> extends s [e] (emit e s).
Proof. intros He. split; [reflexivity|]. destruct e; try reflexivity. exfalso. eapply He. reflexivity. Qed.

Lemma extends_setTextAttr (n attr : string) (fr : Z) (v : number) (s : State) :
  extends s [node_setTextAttr n attr fr v] (setTextAttr n attr fr v s).
Proof. split; reflexivity. Qed.

Lemma extends_trace (msg : string) (s : State) : extends s [MessageLog_trace msg] (trace msg s).
Proof. apply extends_emit. intros; discriminate. Qed.

Lemma extends_two (s s' s'' : State) (e1 e2 : Event) :
  extends s [e1] s' -> extends s' [e2] s'' -> extends s [e1; e2] s''.
Proof. apply (extends_trans s s' s'' [e1] [e2]). Qed.

Lemma extends_writePivot (p : string) (c : Point2d) (s : State) :
  extends s (pivotWrites p (scene_fromOGLX h (pt_x c)) (scene_fromOGLY h (pt_y c)))
          (writePivot h p c s).
Proof.
  unfold writePivot, pivotWrites.
  eapply extends_two; apply extends_setTextAttr.
Qed.

(** One turn of the loop extends the state by one block. *)
Lemma processDrawing_block (s : State) (d : string) :
  exists evs, drawingBlock h d (st_attrs s) evs /\ extends s evs (processDrawing h s d).
Proof.
  unfold processDrawing.
  destruct (resolvePivotNode h d) as [p|] eqn:Hr.
  2:{ eexists. split; [apply block_no_peg; exact Hr | apply extends_trace]. }
  destruct (centerOver h art_layers d (frame_current h)) as [c|] eqn:Hc.
  2:{ eexists. split; [eapply block_empty; eassumption | apply extends_trace]. }
  unfold inverseDrawingPivot.
  destruct (needsInverse d p (useDrawingPivot h d)) eqn:Hn.
  - eexists. split; [eapply block_inverse; eassumption|].
    unfold inversedCenter. cbn [st_attrs setTextAttr].
    match goal with
    | |- context [if ?b then _ else _] => destruct b
    end.
    + eapply extends_trans; [|apply extends_writePivot].
      eapply extends_two; apply extends_setTextAttr.
    + eapply extends_trans; [|apply extends_writePivot].
      eapply extends_two; apply extends_setTextAttr.
  - eexists. split; [eapply block_plain; eassumption|]. apply extends_writePivot.
Qed.

(** The loop extends the state by one block per entry, in order. *)
Lemma batch_blocks (ds : list string) : forall s,
  exists blocks,
    Forall2 (fun d evs => exists m, drawingBlock h d m evs) ds blocks
    /\ extends s (concat blocks) (fold_left (processDrawing h) ds s).
Proof.
  induction ds as [|d ds IH]; intros s; simpl.
  - exists []. split; [constructor | apply extends_refl].
  - destruct (processDrawing_block s d) as (evs & B & E).
    destruct (IH (processDrawing h s d)) as (blocks & F & E').
    exists (evs :: blocks). split.
    + constructor; [exists (st_attrs s); exact B | exact F].
    + simpl. eapply extends_trans; eassumption.
Qed.

End Blocks.

(** ** The upward search for a peg *)

Section PegSearch.

Variable h : Host.

Lemma chain_upstream (n : string) (k : nat) : chain h (upstream h n) k = chain h n (S k).
Proof. unfold chain. symmetry. apply Nat.iter_succ_r. Qed.

Lemma traverse_loop_spec (n : nat) : forall src r seen,
  traverse_loop h n src = (r, seen) ->
  (length seen <= n)%nat
  /\ seen = map (chain h src) (seq 0 (length seen))
  /\ (r <> "" ->
      exists k, length seen = S k /\ chain h src k = r /\ node_type h r = "PEG"
                /\ forall i, (i < k)%nat -> skipped h (chain h src i))
  /\ (r = "" ->
      (exists k, length seen = S k /\ chain h src k = ""
                 /\ forall i, (i < k)%nat -> skipped h (chain h src i))
      \/ (length seen = n /\ forall i, (i < n)%nat -> skipped h (chain h src i))).
Proof.
  induction n as [|n IH]; intros src r seen; simpl.
  - intros [= <- <-]. simpl.
    split; [lia|]. split; [reflexivity|]. split; [congruence|].
    intros _. right. split; [reflexivity|]. intros i Hi. lia.
  - destruct (String.eqb_spec src "") as [E0|N0].
    { intros [= <- <-]. simpl.
      split; [lia|]. split; [reflexivity|]. split; [congruence|].
      intros _. left. exists 0%nat.
      split; [reflexivity|]. split; [exact E0|]. intros i Hi. lia. }
    destruct (String.eqb_spec (node_type h src) "PEG") as [EP|NP].
    { intros [= <- <-]. simpl.
      split; [lia|]. split; [reflexivity|]. split; [|intros E; contradiction].
      intros _. exists 0%nat.
      split; [reflexivity|]. split; [reflexivity|]. split; [exact EP|]. intros i Hi. lia. }
    destruct (traverse_loop h n (node_srcNode h src 0)) as [r' seen'] eqn:Ht.
    intros [= <- <-].
    destruct (IH _ _ _ Ht) as (L & HS & F & G).
    fold (upstream h src) in *.
    assert (Hsk : forall k, (forall i, (i < k)%nat -> skipped h (chain h (upstream h src) i)) ->
                       forall i, (i < S k)%nat -> skipped h (chain h src i)).
    { intros k Hk [|i] Hi; [split; assumption|].
      rewrite <- chain_upstream. apply Hk. lia. }
    simpl. split; [lia|]. split; [|split].
    + f_equal. rewrite HS at 1. rewrite <- seq_shift, map_map.
      apply map_ext. intros i. apply chain_upstream.
    + intros Hr. destruct (F Hr) as (k & Hl & Hc & Ht' & Hs).
      exists (S k). rewrite Hl, <- chain_upstream.
      split; [reflexivity|]. split; [exact Hc|]. split; [exact Ht'|]. apply Hsk, Hs.
    + intros Hr. destruct (G Hr) as [(k & Hl & Hc & Hs)|(Hl & Hs)].
      * left. exists (S k). rewrite Hl, <- chain_upstream.
        split; [reflexivity|]. split; [exact Hc|]. apply Hsk, Hs.
      * right. rewrite Hl. split; [reflexivity|]. apply Hsk, Hs.
Qed.

Lemma resolve_on_drawing (d : string) :
  onParentPeg (canAnimate h d) (useDrawingPivot h d) = false ->
  resolvePivotNode h d = Some d.
Proof. intros H. unfold resolvePivotNode. rewrite H. reflexivity. Qed.

(** When the pivot goes to the parent peg, a resolved target is the first
    peg above the drawing, found within the bound of the helper's loop. *)
Lemma resolve_on_peg (d p : string) :
  onParentPeg (canAnimate h d) (useDrawingPivot h d) = true ->
  resolvePivotNode h d = Some p ->
  exists k, nearestPegAt h d p k
            /\ (k <= node_numberOfSubNodes h (node_parentNode h (upstream h d)))%nat.
Proof.
  intros H. unfold resolvePivotNode. rewrite H. fold (upstream h d).
  destruct (String.eqb_spec (upstream h d) "") as [E0|N0]; [discriminate|].
  destruct (String.eqb_spec (node_type h (upstream h d)) "PEG") as [EP|NP]; simpl.
  - intros [= <-]. exists 0%nat. split; [|lia].
    split; [reflexivity|]. split; [exact N0|]. split; [exact EP|]. intros i Hi. lia.
  - unfold traverseChainUpToFindPeg, traverseChainUpToFindPeg_seen.
    destruct (traverse_loop h _ _) as [r seen] eqn:Ht. simpl.
    destruct (String.eqb_spec r "") as [Er|Nr]; [discriminate|].
    intros [= <-].
    destruct (traverse_loop_spec _ _ _ _ Ht) as (L & _ & F & _).
    destruct (F Nr) as (k & Hl & Hc & Hp & Hs).
    fold (upstream h (upstream h d)) in Hc, Hs.
    exists (S k). split; [|lia].
    split; [rewrite <- !chain_upstream; exact Hc|].
    split; [exact Nr|]. split; [exact Hp|].
    intros [|i] Hi; [split; assumption|].
    rewrite <- !chain_upstream. apply Hs. lia.
Qed.

Lemma nearestPegAt_unique (d p p' : string) (k k' : nat) :
  nearestPegAt h d p k -> nearestPegAt h d p' k' -> k = k' /\ p = p'.
Proof.
  intros (C & N & T & HS) (C' & N' & T' & HS').
  assert (k = k').
  { destruct (Nat.lt_trichotomy k k') as [Hlt|[Heq|Hgt]]; [|exact Heq|].
    - destruct (HS' k Hlt) as [_ Hn]. rewrite C in Hn. contradiction.
    - destruct (HS k' Hgt) as [_ Hn]. rewrite C' in Hn. contradiction. }
  subst k'. split; [reflexivity|]. congruence.
Qed.

End PegSearch.

(** ** Properties of a block *)

Section BlockFacts.

Variable h : Host.

Lemma centerOver_hasBox (d : string) (c : Point2d) :
  centerOver h art_layers d (frame_current h) = Some c -> hasBox h d.
Proof.
  unfold centerOver, cornersOver, hasBox, art_layers. simpl.
  destruct (Drawing_query_getBox h d (frame_current h) 0) eqn:E0;
    [| |intros _; exists 0%nat; do 4 eexists; split; [simpl; auto|exact E0]];
  (destruct (Drawing_query_getBox h d (frame_current h) 1) eqn:E1;
    [| |intros _; exists 1%nat; do 4 eexists; split; [simpl; auto|exact E1]]);
  (destruct (Drawing_query_getBox h d (frame_current h) 2) eqn:E2;
    [| |intros _; exists 2%nat; do 4 eexists; split; [simpl; auto|exact E2]]);
  (destruct (Drawing_query_getBox h d (frame_current h) 3) eqn:E3;
    [| |intros _; exists 3%nat; do 4 eexists; split; [simpl; auto 6|exact E3]]);
  simpl; discriminate.
Qed.

Lemma hasBox_centerOver (d : string) :
  hasBox h d -> exists c, centerOver h art_layers d (frame_current h) = Some c.
Proof.
  intros Hb.
  destruct (centerOver_defined h d (frame_current h) Hb) as [c Hc].
  exists c. exact Hc.
Qed.

Lemma allEmpty_centerOver (d : string) :
  allEmpty h d -> centerOver h art_layers d (frame_current h) = None.
Proof.
  intros He. unfold centerOver. rewrite cornersOver_spec.
  rewrite (layerCoords_empty h pick_x0 art_layers d (frame_current h) He). reflexivity.
Qed.

Lemma In_pivotWrites (p : string) (vx vy : number) (n attr : string) (fr : Z) (v : number) :
  In (node_setTextAttr n attr fr v) (pivotWrites p vx vy) ->
  n = p /\ (attr = "pivot.x" \/ attr = "pivot.y") /\ fr = 1.
Proof. intros [E|[E|[]]]; inversion E; subst; auto. Qed.

(** Every write of a block is a write of [pivot.x] or [pivot.y], at frame
    argument 1, on the resolved target of the drawing. *)
Lemma drawingBlock_writes (d : string) (m : AttrStore) (evs : list Event) :
  drawingBlock h d m evs ->
  forall n attr fr v, In (node_setTextAttr n attr fr v) evs ->
    resolvePivotNode h d = Some n /\ hasBox h d
    /\ (attr = "pivot.x" \/ attr = "pivot.y") /\ fr = 1.
Proof.
  intros B n attr fr v Hin. destruct B as [Hr|p Hr Hc|p c Hr Hc Hn|p c Hr Hc Hn].
  - destruct Hin as [E|[]]. discriminate.
  - destruct Hin as [E|[]]. discriminate.
  - apply In_pivotWrites in Hin as (-> & Ha & Hf).
    split; [exact Hr|]. split; [eapply centerOver_hasBox; exact Hc|]. auto.
  - apply in_app_or in Hin as [Hin|Hin];
      apply In_pivotWrites in Hin as (-> & Ha & Hf);
      (split; [exact Hr|]; split; [eapply centerOver_hasBox; exact Hc|]; auto).
Qed.

Lemma drawingBlock_writesOnlyTo (d p : string) (m : AttrStore) (evs : list Event) :
  drawingBlock h d m evs -> resolvePivotNode h d = Some p -> writesOnlyTo p evs.
Proof.
  intros B Hr n attr fr v Hin.
  destruct (drawingBlock_writes d m evs B n attr fr v Hin) as (Hr' & _). congruence.
Qed.

Lemma drawingBlock_pivotWritten (d p : string) (c : Point2d) (m : AttrStore) (evs : list Event) :
  drawingBlock h d m evs -> resolvePivotNode h d = Some p ->
  centerOver h art_layers d (frame_current h) = Some c -> pivotWritten p evs.
Proof.
  intros B Hr Hc. destruct B as [Hr'|p' Hr' Hc'|p' c' Hr' Hc' Hn|p' c' Hr' Hc' Hn];
    try congruence.
  - assert (p' = p) by congruence. subst. exists []. do 2 eexists. reflexivity.
  - assert (p' = p) by congruence. subst. eexists. do 2 eexists. reflexivity.
Qed.

Lemma drawingBlock_skipped (d : string) (m : AttrStore) (evs : list Event) :
  drawingBlock h d m evs ->
  resolvePivotNode h d = None \/ centerOver h art_layers d (frame_current h) = None ->
  exists msg, evs = [MessageLog_trace msg]
              /\ (msg = msg_no_peg d \/ msg = msg_empty d (frame_current h)).
Proof.
  intros B Hs. destruct B as [Hr|p Hr Hc|p c Hr Hc Hn|p c Hr Hc Hn].
  - eexists. split; [reflexivity|]. left. reflexivity.
  - eexists. split; [reflexivity|]. right. reflexivity.
  - destruct Hs; congruence.
  - destruct Hs; congruence.
Qed.

End BlockFacts.

(** ** The pivot target *)

Lemma PARENT_PEG_not_DRAWING_LAYER : DRAWING_LAYER <> PARENT_PEG.
Proof. discriminate. Qed.

Lemma onParentPeg_false (b : bool) (mode : string) :
  b = true -> mode <> PARENT_PEG -> onParentPeg b mode = false.
Proof.
  intros -> Hm. unfold onParentPeg. simpl.
  apply String.eqb_neq. exact Hm.
Qed.

Lemma onParentPeg_not_animatable (mode : string) : onParentPeg false mode = true.
Proof. reflexivity. Qed.




(** ** The inversion of the embedded pivot *)

Lemma needsInverse_true (d p mode : string) :
  (p <> d /\ mode = PARENT_PEG) \/ (p = d /\ mode = DRAWING_LAYER) ->
  needsInverse d p mode = true.
Proof.
  unfold needsInverse. intros [[Hne ->]|[-> ->]].
  - assert (E : (d === p) = false) by (apply String.eqb_neq; congruence).
    rewrite E. reflexivity.
  - rewrite String.eqb_refl. reflexivity.
Qed.

(** C3. When the target [p] differs from the drawing and the mode is
    "Apply Embedded Pivot on Parent Peg", or [p] is the drawing and the mode
    is "Apply Embedded Pivot on Drawing Layer", the turn emits exactly four
    writes on [p]: [pivot.x] and [pivot.y] reset to 0, then the final pivot.
    Between them the resolved pivot is read back through [node.getPivot] on
    [p] at the current frame, in the attribute store as it is after the
    reset; it is converted by [scene.toOGLX] / [scene.toOGLY] and subtracted
    from the centre exactly when one of its coordinates is [!== 0].  For an
    animatable drawing in "Apply Embedded Pivot on Drawing Layer" mode whose
    pivot read back is non-zero and, once converted, (5, 3), and whose
    centre is (10, 10), the target is the drawing and the pivot written on
    it is (5, 7), handed to [scene.fromOGLX] / [scene.fromOGLY]. *)
Theorem inverse_of_embedded_pivot (h : Host) (s : State) (d p : string) (c : Point2d) :
  resolvePivotNode h d = Some p ->
  centerOver h art_layers d (frame_current h) = Some c ->
  (p <> d /\ useDrawingPivot h d = PARENT_PEG)
  \/ (p = d /\ useDrawingPivot h d = DRAWING_LAYER) ->
  let reset := setTextAttr p "pivot.y" 1 zero (setTextAttr p "pivot.x" 1 zero s) in
  let drawPivot := node_getPivot h (st_attrs reset) p (frame_current h) in
  let drawPivot_local_OGL :=
    mkPoint2d (scene_toOGLX h (pt_x drawPivot)) (scene_toOGLY h (pt_y drawPivot)) in
  let nonzero := strict_neq (pt_x drawPivot) zero || strict_neq (pt_y drawPivot) zero in
  let written := if nonzero then subtractBFromA c drawPivot_local_OGL else c in
  processDrawing h s d = writePivot h p written reset
  /\ st_events (processDrawing h s d)
     = st_events s ++
       [node_setTextAttr p "pivot.x" 1 zero;
        node_setTextAttr p "pivot.y" 1 zero;
        node_setTextAttr p "pivot.x" 1 (scene_fromOGLX h (pt_x written));
        node_setTextAttr p "pivot.y" 1 (scene_fromOGLY h (pt_y written))]
  /\ (canAnimate h d = true -> useDrawingPivot h d = DRAWING_LAYER ->
      c = mkPoint2d (of_Z 10) (of_Z 10) ->
      drawPivot_local_OGL = mkPoint2d (of_Z 5) (of_Z 3) ->
      nonzero = true ->
      p = d
      /\ written = mkPoint2d (of_Z 5) (of_Z 7)
      /\ st_events (processDrawing h s d)
         = st_events s ++ pivotWrites d zero zero
                       ++ pivotWrites d (scene_fromOGLX h (of_Z 5)) (scene_fromOGLY h (of_Z 7))).
Proof.
  intros Hr Hc Hcond reset drawPivot drawPivot_local_OGL nonzero written.
  assert (Hp : processDrawing h s d = writePivot h p written reset).
  { unfold processDrawing. rewrite Hr, Hc. unfold inverseDrawingPivot.
    rewrite (needsInverse_true _ _ _ Hcond).
    fold reset. fold drawPivot. fold nonzero. fold drawPivot_local_OGL.
    unfold written. destruct nonzero; reflexivity. }
  assert (He : st_events (processDrawing h s d)
               = st_events s ++
                 [node_setTextAttr p "pivot.x" 1 zero;
                  node_setTextAttr p "pivot.y" 1 zero;
                  node_setTextAttr p "pivot.x" 1 (scene_fromOGLX h (pt_x written));
                  node_setTextAttr p "pivot.y" 1 (scene_fromOGLY h (pt_y written))]).
  { rewrite Hp. unfold writePivot, reset, setTextAttr. simpl.
    rewrite <- !app_assoc. reflexivity. }
  split; [exact Hp|]. split; [exact He|].
  intros Ha Hm Hc10 Hdp Hnz.
  assert (Hpd : p = d).
  { pose proof (resolve_on_drawing h d) as Hrd.
    rewrite Hrd in Hr; [congruence|].
    apply onParentPeg_false; [exact Ha|]. rewrite Hm. exact PARENT_PEG_not_DRAWING_LAYER. }
  assert (Hw : written = mkPoint2d (of_Z 5) (of_Z 7)).
  { unfold written. rewrite Hnz, Hdp, Hc10. reflexivity. }
  split; [exact Hpd|]. split; [exact Hw|].
  rewrite He, Hw, Hpd. reflexivity.
Qed.

(** The theorem at [Top/A]: animatable, in "Apply Embedded Pivot on Drawing
    Layer" mode, centre (10, 10), embedded pivot (5, 3). *)
Lemma inverse_on_Top_A :
  st_events (processDrawing Demo.host Demo.start "Top/A")
  = pivotWrites "Top/A" zero zero ++ pivotWrites "Top/A" (of_Z 5) (of_Z 7).
Proof.
  destruct (inverse_of_embedded_pivot Demo.host Demo.start "Top/A" "Top/A"
              (mkPoint2d (of_Z 10) (of_Z 10))) as (_ & _ & Hex).
  - reflexivity.
  - vm_compute. reflexivity.
  - right. split; reflexivity.
  - destruct (Hex eq_refl eq_refl eq_refl eq_refl eq_refl) as (_ & _ & He). exact He.
Defined.


(** ** Failure of the peg search *)

Section PegSearchComplete.

Variable h : Host.

Lemma traverse_loop_finds (n : nat) : forall src k p,
  (k < n)%nat -> chain h src k = p -> p <> "" -> node_type h p = "PEG" ->
  (forall i, (i < k)%nat -> skipped h (chain h src i)) ->
  fst (traverse_loop h n src) = p.
Proof.
  induction n as [|n IH]; intros src k p Hk Hc Hp Ht Hs; [lia|].
  simpl. destruct k as [|k].
  - simpl in Hc. subst p.
    destruct (String.eqb_spec src "") as [E|_]; [contradiction|].
    destruct (String.eqb_spec (node_type h src) "PEG") as [_|N]; [reflexivity|contradiction].
  - destruct (Hs 0%nat ltac:(lia)) as [N0 NP]. simpl in N0, NP.
    destruct (String.eqb_spec src "") as [E|_]; [contradiction|].
    destruct (String.eqb_spec (node_type h src) "PEG") as [E|_]; [contradiction|].
    fold (upstream h src).
    destruct (traverse_loop h n (upstream h src)) as [r seen] eqn:Hl. simpl.
    change r with (fst (r, seen)). rewrite <- Hl.
    apply (IH (upstream h src) k p); auto; try lia.
    + rewrite chain_upstream. exact Hc.
    + intros i Hi. rewrite chain_upstream. apply Hs. lia.
Qed.

Lemma resolve_finds (d p : string) (k : nat) :
  onParentPeg (canAnimate h d) (useDrawingPivot h d) = true ->
  nearestPegAt h d p k -> (k <= searchBound h d)%nat ->
  resolvePivotNode h d = Some p.
Proof.
  intros H (Hc & Hp & Ht & Hs) Hk.
  unfold resolvePivotNode. rewrite H. fold (upstream h d).
  destruct k as [|k].
  - simpl in Hc. rewrite Hc.
    destruct (String.eqb_spec p "") as [E|_]; [contradiction|].
    destruct (String.eqb_spec (node_type h p) "PEG") as [_|N]; [reflexivity|contradiction].
  - destruct (Hs 0%nat ltac:(lia)) as [N0 NP]. simpl in N0, NP. fold (upstream h d) in N0, NP.
    destruct (String.eqb_spec (upstream h d) "") as [E|_]; [contradiction|].
    destruct (String.eqb_spec (node_type h (upstream h d)) "PEG") as [E|_]; [contradiction|].
    simpl. unfold traverseChainUpToFindPeg, traverseChainUpToFindPeg_seen.
    fold (upstream h (upstream h d)). fold (searchBound h d).
    rewrite (traverse_loop_finds (searchBound h d) (upstream h (upstream h d)) k p); auto.
    + destruct (String.eqb_spec p "") as [E|_]; [contradiction|reflexivity].
    + rewrite !chain_upstream. exact Hc.
    + intros i Hi. rewrite !chain_upstream. apply Hs. lia.
Qed.

Lemma processDrawing_no_target (s : State) (d : string) :
  resolvePivotNode h d = None -> processDrawing h s d = trace (msg_no_peg d) s.
Proof. intros Hr. unfold processDrawing. rewrite Hr. reflexivity. Qed.

End PegSearchComplete.

(** C4. For a drawing [d] whose pivot goes to the parent peg.  The helper's
    loop looks at the nodes [seen], which are consecutive nodes of the chain
    of source links and at most [searchBound h d] many (the number of
    sub-nodes of the parent of the node connected to [d]), so the walk is
    finite.  Resolution yields [p] exactly when [p] is the first peg above
    [d] and at most [searchBound h d] non-peg nodes are walked past; so it
    fails when the chain ends in an empty link, and when the bound is used
    up, before a peg is met.  When it fails, the turn only logs the notice,
    and the loop goes on with the remaining drawings. *)
Theorem peg_search_is_bounded_and_failure_skips (h : Host) (s : State) (d : string) :
  onParentPeg (canAnimate h d) (useDrawingPivot h d) = true ->
  (forall r seen,
      traverseChainUpToFindPeg_seen h (upstream h d) = (r, seen) ->
      (length seen <= searchBound h d)%nat
      /\ seen = map (chain h (upstream h (upstream h d))) (seq 0 (length seen)))
  /\ (forall p, resolvePivotNode h d = Some p <->
                exists k, nearestPegAt h d p k /\ (k <= searchBound h d)%nat)
  /\ (forall k, chain h d (S k) = "" ->
                (forall i, (i < k)%nat -> skipped h (chain h d (S i))) ->
                resolvePivotNode h d = None)
  /\ ((forall i, (i <= searchBound h d)%nat -> skipped h (chain h d (S i))) ->
      resolvePivotNode h d = None)
  /\ (resolvePivotNode h d = None ->
      processDrawing h s d = trace (msg_no_peg d) s
      /\ st_events (processDrawing h s d) = st_events s ++ [MessageLog_trace (msg_no_peg d)]
      /\ st_attrs (processDrawing h s d) = st_attrs s
      /\ forall rest,
           fold_left (processDrawing h) (d :: rest) s
           = fold_left (processDrawing h) rest (trace (msg_no_peg d) s)).
Proof.
  intros H.
  assert (Hiff : forall p, resolvePivotNode h d = Some p <->
                           exists k, nearestPegAt h d p k /\ (k <= searchBound h d)%nat).
  { intros p. split.
    - intros Hr. apply resolve_on_peg; assumption.
    - intros (k & Hn & Hk). eapply resolve_finds; eassumption. }
  split; [|split; [exact Hiff|split; [|split]]].
  - intros r seen Ht. unfold traverseChainUpToFindPeg_seen in Ht.
    destruct (traverse_loop_spec h _ _ _ _ Ht) as (L & HS & _). split; assumption.
  - intros k Hend Hs.
    destruct (resolvePivotNode h d) as [p|] eqn:Hr; [|reflexivity].
    destruct (proj1 (Hiff p) eq_refl) as (k' & (Hc & Hp & Ht & Hs') & _). exfalso.
    destruct (Nat.lt_trichotomy k' k) as [Hlt|[Heq|Hgt]].
    + destruct (Hs k' Hlt) as [_ Hn]. rewrite Hc in Hn. contradiction.
    + subst k'. congruence.
    + destruct (Hs' k Hgt) as [Hn _]. contradiction.
  - intros Hs.
    destruct (resolvePivotNode h d) as [p|] eqn:Hr; [|reflexivity].
    destruct (proj1 (Hiff p) eq_refl) as (k' & (Hc & Hp & Ht & Hs') & Hk). exfalso.
    destruct (Hs k' Hk) as [_ Hn]. rewrite Hc in Hn. contradiction.
  - intros Hr. pose proof (processDrawing_no_target h s d Hr) as Hp.
    split; [exact Hp|]. rewrite Hp. repeat split.
    intros rest. simpl. rewrite Hp. reflexivity.
Qed.

(** The theorem at [Top/L], which is not animatable and has nothing
    connected above it. *)
Lemma Top_L_has_no_peg_and_is_skipped :
  resolvePivotNode Demo.host "Top/L" = None
  /\ st_events (processDrawing Demo.host Demo.start "Top/L")
     = [MessageLog_trace (msg_no_peg "Top/L")].
Proof.
  destruct (peg_search_is_bounded_and_failure_skips Demo.host Demo.start "Top/L" eq_refl)
    as (_ & _ & Hend & _ & Hskip).
  assert (Hr : resolvePivotNode Demo.host "Top/L" = None).
  { apply (Hend 0%nat); [reflexivity|]. intros i Hi. lia. }
  split; [exact Hr|]. destruct (Hskip Hr) as (_ & He & _). exact He.
Defined.


(** ** Skipped drawings, the empty selection, and the batch invariant *)

(** C6. When the four art layers of a drawing all answer [false] or
    "empty" at the current frame, its turn writes no attribute, logs one
    notice (the "is empty at frame" notice when a target had been resolved),
    and the loop goes on with the next drawing. *)
Theorem empty_drawing_is_skipped_with_notice (h : Host) (s : State) (d : string) :
  allEmpty h d ->
  exists msg,
    processDrawing h s d = trace msg s
    /\ (msg = msg_no_peg d \/ msg = msg_empty d (frame_current h))
    /\ (resolvePivotNode h d <> None -> msg = msg_empty d (frame_current h))
    /\ st_events (processDrawing h s d) = st_events s ++ [MessageLog_trace msg]
    /\ st_attrs (processDrawing h s d) = st_attrs s
    /\ noWrites [MessageLog_trace msg]
    /\ forall rest,
         fold_left (processDrawing h) (d :: rest) s
         = fold_left (processDrawing h) rest (trace msg s).
Proof.
  intros He. pose proof (allEmpty_centerOver h d He) as Hc.
  assert (Hp : exists msg,
             processDrawing h s d = trace msg s
             /\ (msg = msg_no_peg d \/ msg = msg_empty d (frame_current h))
             /\ (resolvePivotNode h d <> None -> msg = msg_empty d (frame_current h))).
  { unfold processDrawing. rewrite Hc.
    destruct (resolvePivotNode h d) as [p|].
    - eexists. split; [reflexivity|]. split; [right; reflexivity|]. reflexivity.
    - eexists. split; [reflexivity|]. split; [left; reflexivity|]. congruence. }
  destruct Hp as (msg & Hp & Hm & Hm').
  exists msg. rewrite Hp. repeat split; try assumption.
  - intros n attr fr v [E|[]]. discriminate.
  - intros rest. simpl. rewrite Hp. reflexivity.
Qed.

(** The theorem at [Top/E], whose four art layers are empty. *)
Lemma Top_E_is_empty_and_skipped :
  processDrawing Demo.host Demo.start "Top/E"
  = trace (msg_empty "Top/E" 12) Demo.start.
Proof.
  destruct (empty_drawing_is_skipped_with_notice Demo.host Demo.start "Top/E")
    as (msg & Hp & _ & Hm & _).
  - intros at_ _. right. reflexivity.
  - rewrite Hp. rewrite Hm; [reflexivity|].
    intros E. vm_compute in E. discriminate E.
Defined.


(** C7. When the selection expands to no drawing at all, the run shows the
    information dialog once and does nothing else: no attribute is written,
    no undo bracket is opened or closed, nothing is logged. *)
Theorem empty_selection_only_shows_dialog (h : Host) (fuel : nat) (s : State) :
  getDrawings h fuel (selection_selectedNodes h) = Some [] ->
  exists s',
    ANM_Set_Layer_Pivots_At_Center_Of_Drawings h fuel s = Some s'
    /\ st_events s' = st_events s ++ [MessageBox_information msg_select]
    /\ st_attrs s' = st_attrs s.
Proof.
  intros Hg. unfold ANM_Set_Layer_Pivots_At_Center_Of_Drawings. rewrite Hg. simpl.
  eexists. repeat split.
Qed.

(** The theorem when the only selected node is the empty group
    [Top/Void]. *)
Lemma empty_group_selection_shows_dialog :
  exists s',
    ANM_Set_Layer_Pivots_At_Center_Of_Drawings (Demo.host_with ["Top/Void"]) 3 Demo.start
    = Some s'
    /\ st_events s' = [MessageBox_information msg_select]
    /\ st_attrs s' = ∅.
Proof.
  destruct (empty_selection_only_shows_dialog (Demo.host_with ["Top/Void"]) 3 Demo.start eq_refl)
    as (s' & H1 & H2 & H3).
  exists s'. split; [exact H1|]. split; [exact H2|exact H3].
Defined.


Section MainLoop.

Variable h : Host.

Lemma run_value (fuel : nat) (s : State) (ds : list string) :
  getDrawings h fuel (selection_selectedNodes h) = Some ds ->
  ANM_Set_Layer_Pivots_At_Center_Of_Drawings h fuel s = Some (runOn h ds s).
Proof.
  intros Hg. unfold ANM_Set_Layer_Pivots_At_Center_Of_Drawings. rewrite Hg.
  destruct ds; reflexivity.
Qed.

Lemma stateAt_0 (ds : list string) (s : State) :
  stateAt h ds s 0 = emit (scene_beginUndoRedoAccum undo_name) s.
Proof. reflexivity. Qed.

Lemma stateAt_S (ds : list string) (s : State) (i : nat) (d : string) :
  ds !! i = Some d -> stateAt h ds s (S i) = processDrawing h (stateAt h ds s i) d.
Proof.
  intros Hi. unfold stateAt. rewrite (take_S_r ds i d Hi), fold_left_app. reflexivity.
Qed.

Lemma stateAt_end (ds : list string) (s : State) :
  stateAt h ds s (length ds)
  = fold_left (processDrawing h) ds (emit (scene_beginUndoRedoAccum undo_name) s).
Proof. unfold stateAt. rewrite firstn_all. reflexivity. Qed.

End MainLoop.

(** C8. In a run whose collected drawings are [ds], the loop goes through
    [ds] in order, the turn at index [i] taking the state [stateAt h ds s i]
    to the next one.  For the drawing [d] at any index: when [d] has a
    target [p] and a box, its turn writes on [p] and on no other node, and
    ends with the pivot of [p]; every attribute write of the turn comes
    with a resolved target, which is the node written, and a non-empty box
    on one of the four art layers at the current frame; and when [d] has no
    target or no box its turn writes nothing. *)
Theorem one_target_per_drawing_and_only_with_a_box
    (h : Host) (fuel : nat) (s : State) (ds : list string) (i : nat) (d : string) :
  getDrawings h fuel (selection_selectedNodes h) = Some ds ->
  ds !! i = Some d ->
  ANM_Set_Layer_Pivots_At_Center_Of_Drawings h fuel s
  = Some (emit (scene_endUndoRedoAccum "") (stateAt h ds s (length ds)))
  /\ stateAt h ds s (S i) = processDrawing h (stateAt h ds s i) d
  /\ exists evs,
       extends (stateAt h ds s i) evs (processDrawing h (stateAt h ds s i) d)
       /\ (forall p, resolvePivotNode h d = Some p -> hasBox h d ->
             writesOnlyTo p evs /\ pivotWritten p evs)
       /\ (forall n attr fr v, In (node_setTextAttr n attr fr v) evs ->
             resolvePivotNode h d = Some n /\ hasBox h d)
       /\ (resolvePivotNode h d = None \/ allEmpty h d -> noWrites evs).
Proof.
  intros Hg Hi. split; [|split; [apply stateAt_S; exact Hi|]].
  - rewrite (run_value h fuel s ds Hg), stateAt_end.
    destruct ds as [|d0 ds']; [discriminate Hi|reflexivity].
  - destruct (processDrawing_block h (stateAt h ds s i) d) as (evs & B & E).
    exists evs. split; [exact E|]. split; [|split].
    + intros p Hr Hb. destruct (hasBox_centerOver h d Hb) as [c Hc].
      split; [eapply drawingBlock_writesOnlyTo; eassumption|].
      eapply drawingBlock_pivotWritten; eassumption.
    + intros n attr fr v Hin.
      destruct (drawingBlock_writes h d _ evs B n attr fr v Hin) as (Hr & Hb & _).
      split; assumption.
    + intros Hskip.
      assert (Hs : resolvePivotNode h d = None
                   \/ centerOver h art_layers d (frame_current h) = None).
      { destruct Hskip as [Hr|He]; [left; exact Hr|right; apply allEmpty_centerOver; exact He]. }
      destruct (drawingBlock_skipped h d _ evs B Hs) as (msg & -> & _).
      intros n attr fr v [E'|[]]. discriminate E'.
Qed.

(** The theorem at the run of the demonstration scene, for its first
    drawing, [Top/A], and for its third, [Top/E], which is empty. *)
Lemma demo_turns_of_Top_A_and_Top_E :
  (exists evs,
     extends (emit (scene_beginUndoRedoAccum undo_name) Demo.start) evs
       (processDrawing Demo.host (emit (scene_beginUndoRedoAccum undo_name) Demo.start) "Top/A")
     /\ writesOnlyTo "Top/A" evs /\ pivotWritten "Top/A" evs)
  /\ (exists evs,
        st_events (stateAt Demo.host ["Top/A"; "Top/B"; "Top/E"; "Top/L"; "Top/G/D1";
                     "Top/G/D2"; "Top/G/N/D4"; "Top/G/N/D5"; "Top/G/D3"] Demo.start 3)
        = st_events (stateAt Demo.host ["Top/A"; "Top/B"; "Top/E"; "Top/L"; "Top/G/D1";
                       "Top/G/D2"; "Top/G/N/D4"; "Top/G/N/D5"; "Top/G/D3"] Demo.start 2)
          ++ evs
        /\ noWrites evs).
Proof.
  split.
  - destruct (one_target_per_drawing_and_only_with_a_box Demo.host 3 Demo.start
                ["Top/A"; "Top/B"; "Top/E"; "Top/L"; "Top/G/D1"; "Top/G/D2";
                 "Top/G/N/D4"; "Top/G/N/D5"; "Top/G/D3"] 0 "Top/A" eq_refl eq_refl)
      as (_ & _ & evs & E & Hw & _).
    exists evs. split; [exact E|]. apply (Hw "Top/A" eq_refl).
    exists 1%nat, (of_Z 0), (of_Z 1875), (of_Z 18750), (of_Z 37500).
    split; [simpl; auto | reflexivity].
  - destruct (one_target_per_drawing_and_only_with_a_box Demo.host 3 Demo.start
                ["Top/A"; "Top/B"; "Top/E"; "Top/L"; "Top/G/D1"; "Top/G/D2";
                 "Top/G/N/D4"; "Top/G/N/D5"; "Top/G/D3"] 2 "Top/E" eq_refl eq_refl)
      as (_ & Hs & evs & [E _] & _ & _ & Hn).
    exists evs. split.
    + rewrite Hs. exact E.
    + apply Hn. right. intros at_ _. right. reflexivity.
Defined.

(** ** The Drawing Collector *)

Section Collector.

Variable h : Host.

Lemma option_map_app_app (a b : list string) (o : option (list string)) :
  option_map (app (a ++ b)) o = option_map (app a) (option_map (app b) o).
Proof. destruct o; simpl; [rewrite app_assoc|]; reflexivity. Qed.

Lemma getDrawings_loop_acc (recur : list string -> option (list string)) (l : list string) :
  forall acc, getDrawings_loop h recur l acc = option_map (app acc) (getDrawings_loop h recur l []).
Proof.
  induction l as [|n l IH]; intros acc; simpl.
  - rewrite app_nil_r. reflexivity.
  - destruct (node_type h n === "READ").
    + rewrite IH, (IH [n]). apply option_map_app_app.
    + destruct (node_type h n === "GROUP"); [|apply IH].
      destruct (recur (node_subNodes h n)) as [sub|]; [|reflexivity].
      rewrite IH, (IH sub). apply option_map_app_app.
Qed.

Lemma getDrawings_nil (f : nat) : getDrawings h (S f) [] = Some [].
Proof. reflexivity. Qed.

Lemma getDrawings_cons (f : nat) (n : string) (rest : list string) :
  getDrawings h (S f) (n :: rest) =
  if node_type h n === "READ" then option_map (cons n) (getDrawings h (S f) rest)
  else if node_type h n === "GROUP" then
    match getDrawings h f (node_subNodes h n) with
    | Some sub => option_map (app sub) (getDrawings h (S f) rest)
    | None => None
    end
  else getDrawings h (S f) rest.
Proof.
  simpl. destruct (node_type h n === "READ").
  - rewrite getDrawings_loop_acc. reflexivity.
  - destruct (node_type h n === "GROUP"); [|reflexivity].
    destruct (getDrawings h f (node_subNodes h n)) as [sub|]; [|reflexivity].
    rewrite getDrawings_loop_acc. reflexivity.
Qed.

Lemma getDrawings_fuel_pos (f : nat) (l ds : list string) :
  getDrawings h f l = Some ds -> exists f', f = S f'.
Proof. destruct f; [discriminate|]. intros _. eexists. reflexivity. Qed.

Lemma getDrawings_S (f : nat) : forall l ds,
  getDrawings h f l = Some ds -> getDrawings h (S f) l = Some ds.
Proof.
  induction f as [|f IHf]; [discriminate|].
  induction l as [|n l IHl]; intros ds H.
  - rewrite getDrawings_nil in *. exact H.
  - rewrite getDrawings_cons in *.
    destruct (node_type h n === "READ").
    + destruct (getDrawings h (S f) l) as [r|] eqn:E; [|discriminate].
      rewrite (IHl r eq_refl). exact H.
    + destruct (node_type h n === "GROUP").
      * destruct (getDrawings h f (node_subNodes h n)) as [sub|] eqn:Es; [|discriminate].
        rewrite (IHf _ _ Es).
        destruct (getDrawings h (S f) l) as [r|] eqn:E; [|discriminate].
        rewrite (IHl r eq_refl). exact H.
      * apply IHl. exact H.
Qed.

Lemma getDrawings_mono (f f' : nat) (l ds : list string) :
  (f <= f')%nat -> getDrawings h f l = Some ds -> getDrawings h f' l = Some ds.
Proof. induction 1 as [|f' _ IH]; intros H; [exact H|]. apply getDrawings_S, IH, H. Qed.

Lemma getDrawings_expands (f : nat) : forall l ds,
  getDrawings h f l = Some ds -> expands h l ds.
Proof.
  induction f as [|f IHf]; [discriminate|].
  induction l as [|n l IHl]; intros ds H.
  - rewrite getDrawings_nil in H. injection H as <-. constructor.
  - rewrite getDrawings_cons in H.
    destruct (String.eqb_spec (node_type h n) "READ") as [ER|NR].
    + destruct (getDrawings h (S f) l) as [r|] eqn:E; [|discriminate].
      injection H as <-. apply expands_drawing; auto.
    + destruct (String.eqb_spec (node_type h n) "GROUP") as [EG|NG].
      * destruct (getDrawings h f (node_subNodes h n)) as [sub|] eqn:Es; [|discriminate].
        destruct (getDrawings h (S f) l) as [r|] eqn:E; [|discriminate].
        injection H as <-. apply expands_group; auto.
      * apply expands_other; auto.
Qed.

Lemma expands_getDrawings (l ds : list string) :
  expands h l ds ->
  exists f, forall f', (f <= f')%nat -> getDrawings h f' l = Some ds.
Proof.
  induction 1 as [|n l r HR _ [f IH]|n l sub r NR HG _ [f1 IH1] _ [f2 IH2]|n l r NR NG _ [f IH]].
  - exists 1%nat. intros [|f'] Hf; [lia|]. reflexivity.
  - exists (S f). intros [|f'] Hf; [lia|].
    rewrite getDrawings_cons, HR, String.eqb_refl. rewrite IH by lia. reflexivity.
  - exists (S (Nat.max f1 f2)). intros [|f'] Hf; [lia|].
    rewrite getDrawings_cons.
    destruct (String.eqb_spec (node_type h n) "READ") as [E|_]; [contradiction|].
    rewrite HG, String.eqb_refl. rewrite IH1 by lia. rewrite IH2 by lia. reflexivity.
  - exists (S f). intros [|f'] Hf; [lia|].
    rewrite getDrawings_cons.
    destruct (String.eqb_spec (node_type h n) "READ") as [E|_]; [contradiction|].
    destruct (String.eqb_spec (node_type h n) "GROUP") as [E|_]; [contradiction|].
    apply IH. lia.
Qed.

Lemma expands_functional (l r r' : list string) : expands h l r -> expands h l r' -> r = r'.
Proof.
  intros H H'.
  destruct (expands_getDrawings _ _ H) as [f Hf].
  destruct (expands_getDrawings _ _ H') as [f' Hf'].
  pose proof (Hf (Nat.max f f') ltac:(lia)) as E.
  rewrite (Hf' (Nat.max f f') ltac:(lia)) in E. congruence.
Qed.

Lemma expands_all_drawings (l r : list string) :
  expands h l r -> Forall (fun d => node_type h d = "READ") r.
Proof.
  induction 1; auto.
  apply Forall_app. split; assumption.
Qed.

Lemma expands_drawings_only (l : list string) :
  Forall (fun d => node_type h d = "READ") l -> expands h l l.
Proof. induction 1; constructor; assumption. Qed.

Lemma expands_app (l1 l2 r1 r2 : list string) :
  expands h l1 r1 -> expands h l2 r2 -> expands h (l1 ++ l2) (r1 ++ r2).
Proof.
  intros H1 Hl2. induction H1; simpl; auto.
  - apply expands_drawing; auto.
  - rewrite <- app_assoc. apply expands_group; auto.
  - apply expands_other; auto.
Qed.

End Collector.

Section CollectorMore.

Variable h : Host.

Lemma getDrawings_drawings_only (f : nat) (l : list string) :
  Forall (fun d => node_type h d = "READ") l -> getDrawings h (S f) l = Some l.
Proof.
  induction 1 as [|n l Hn _ IH]; [reflexivity|].
  rewrite getDrawings_cons, Hn, String.eqb_refl, IH. reflexivity.
Qed.

Lemma getDrawings_app (f : nat) (l1 l2 : list string) :
  getDrawings h (S f) (l1 ++ l2) =
  match getDrawings h (S f) l1, getDrawings h (S f) l2 with
  | Some r1, Some r2 => Some (r1 ++ r2)
  | _, _ => None
  end.
Proof.
  induction l1 as [|n l1 IH]; simpl app.
  - rewrite getDrawings_nil. destruct (getDrawings h (S f) l2); reflexivity.
  - rewrite !getDrawings_cons, IH.
    destruct (node_type h n === "READ").
    + destruct (getDrawings h (S f) l1), (getDrawings h (S f) l2); reflexivity.
    + destruct (node_type h n === "GROUP"); [|reflexivity].
      destruct (getDrawings h f (node_subNodes h n)); [|reflexivity].
      destruct (getDrawings h (S f) l1), (getDrawings h (S f) l2); simpl;
        try rewrite app_assoc; reflexivity.
Qed.

Lemma getDrawings_group (f : nat) (g : string) :
  node_type h g = "GROUP" ->
  getDrawings h (S f) [g] = option_map (fun sub => sub ++ []) (getDrawings h f (node_subNodes h g)).
Proof.
  intros Hg. rewrite getDrawings_cons, Hg. simpl.
  destruct (getDrawings h f (node_subNodes h g)); reflexivity.
Qed.

(** Nested groups are finite when sub-nodes have a smaller rank than their
    group; then every list of nodes has a flattened list of drawings. *)
Lemma expands_total (rank : string -> nat) :
  (forall g c, node_type h g = "GROUP" -> In c (node_subNodes h g) -> (rank c < rank g)%nat) ->
  forall l, exists ds, expands h l ds.
Proof.
  intros Hrank.
  assert (H : forall N l, (forall n, In n l -> (rank n < N)%nat) -> exists ds, expands h l ds).
  { induction N as [|N IHN]; intros l Hl.
    - destruct l as [|n l]; [exists []; constructor|].
      specialize (Hl n (or_introl eq_refl)). lia.
    - induction l as [|n l IHl]; [exists []; constructor|].
      destruct IHl as [r Hr]; [intros; apply Hl; right; assumption|].
      destruct (String.eqb_spec (node_type h n) "READ") as [ER|NR].
      + exists (n :: r). apply expands_drawing; assumption.
      + destruct (String.eqb_spec (node_type h n) "GROUP") as [EG|NG].
        * destruct (IHN (node_subNodes h n)) as [sub Hsub].
          { intros c Hc. specialize (Hrank n c EG Hc).
            specialize (Hl n (or_introl eq_refl)). lia. }
          exists (sub ++ r). apply expands_group; assumption.
        * exists r. apply expands_other; assumption. }
  intros l. apply (H (S (list_max (map rank l)))).
  intros n Hn. apply Nat.lt_succ_r.
  pose proof (list_max_le (map rank l) (list_max (map rank l))) as [Hle _].
  specialize (Hle (Nat.le_refl _)).
  rewrite Forall_forall in Hle. apply Hle, list_elem_of_In, in_map, Hn.
Qed.

End CollectorMore.

(** C5. [getDrawings] computes the flattened list of drawings of its
    argument: whatever it returns is that list ([expands]: drawings kept,
    groups replaced depth-first by the flattened list of their sub-nodes,
    other nodes dropped, order kept); the flattened list is unique, made of
    drawing nodes only, and is returned as soon as the fuel covers the
    nesting depth; it exists whenever sub-nodes rank below their group.
    The function reads the host and touches no state.  A group holding
    three drawings and, anywhere among them, one group of two drawings
    yields the five drawings in depth-first order. *)
Theorem collector_flattens_depth_first (h : Host) (l : list string) :
  (forall fuel ds, getDrawings h fuel l = Some ds -> expands h l ds)
  /\ (forall ds, expands h l ds ->
        exists fuel, forall fuel', (fuel <= fuel')%nat -> getDrawings h fuel' l = Some ds)
  /\ (forall ds ds', expands h l ds -> expands h l ds' -> ds = ds')
  /\ (forall ds, expands h l ds -> Forall (fun d => node_type h d = "READ") ds)
  /\ (forall rank : string -> nat,
        (forall g c, node_type h g = "GROUP" -> In c (node_subNodes h g) ->
                     (rank c < rank g)%nat) ->
        exists ds, expands h l ds)
  /\ (forall G N pre post e1 e2 fuel,
        l = [G] ->
        node_type h G = "GROUP" -> node_subNodes h G = pre ++ N :: post ->
        Forall (fun d => node_type h d = "READ") (pre ++ post) -> length (pre ++ post) = 3%nat ->
        node_type h N = "GROUP" -> node_subNodes h N = [e1; e2] ->
        node_type h e1 = "READ" -> node_type h e2 = "READ" ->
        getDrawings h (S (S (S fuel))) l = Some (pre ++ [e1; e2] ++ post)
        /\ length (pre ++ [e1; e2] ++ post) = 5%nat).
Proof.
  split; [intros fuel ds; apply getDrawings_expands|].
  split; [intros ds; apply expands_getDrawings|].
  split; [intros ds ds'; apply expands_functional|].
  split; [intros ds; apply expands_all_drawings|].
  split; [intros rank Hrank; apply expands_total with (rank := rank); exact Hrank|].
  intros G N pre post e1 e2 fuel -> HG HsG Hpp Hlen HN HsN He1 He2.
  apply Forall_app in Hpp as [Hpre Hpost].
  split.
  - rewrite getDrawings_group by exact HG. rewrite HsG, getDrawings_app.
    rewrite (getDrawings_drawings_only h _ pre Hpre).
    rewrite getDrawings_cons.
    destruct (String.eqb_spec (node_type h N) "READ") as [E|_];
      [rewrite HN in E; discriminate|].
    rewrite HN, String.eqb_refl, HsN.
    rewrite (getDrawings_drawings_only h _ [e1; e2]) by (repeat constructor; assumption).
    rewrite (getDrawings_drawings_only h _ post Hpost).
    simpl. rewrite app_nil_r. reflexivity.
  - rewrite !length_app in *. simpl. lia.
Qed.

(** The theorem at the group [Top/G] of the demonstration scene: three
    drawings, and the group [Top/G/N] of two drawings between them. *)
Lemma Top_G_yields_five_drawings :
  getDrawings Demo.host 3 ["Top/G"]
  = Some ["Top/G/D1"; "Top/G/D2"; "Top/G/N/D4"; "Top/G/N/D5"; "Top/G/D3"].
Proof.
  destruct (collector_flattens_depth_first Demo.host ["Top/G"]) as (_ & _ & _ & _ & _ & Hex).
  destruct (Hex "Top/G" "Top/G/N" ["Top/G/D1"; "Top/G/D2"] ["Top/G/D3"]
              "Top/G/N/D4" "Top/G/N/D5" 0%nat
              eq_refl eq_refl eq_refl ltac:(repeat constructor) eq_refl
              eq_refl eq_refl eq_refl eq_refl) as [H _].
  exact H.
Defined.


(** ** Duplicates *)

Section Duplicates.

Variable h : Host.

Lemma count_occ_concat (parts : list (list string)) (x : string) :
  count_occ string_dec (concat parts) x
  = list_sum (map (fun part => count_occ string_dec part x) parts).
Proof.
  induction parts as [|part parts IH]; simpl; [reflexivity|].
  rewrite count_occ_app, IH. reflexivity.
Qed.

(** The result of [getDrawings] is made of one part per entry of its
    argument, in order. *)
Lemma getDrawings_parts (f : nat) (l : list string) : forall dl,
  getDrawings h (S f) l = Some dl ->
  exists parts, dl = concat parts /\ Forall2 (entryPart h) l parts.
Proof.
  induction l as [|n l IH]; intros dl Hg.
  - rewrite getDrawings_nil in Hg. injection Hg as <-. exists []. split; constructor.
  - rewrite getDrawings_cons in Hg. unfold entryPart.
    destruct (node_type h n === "READ") eqn:ER.
    + destruct (getDrawings h (S f) l) as [r|]; [|discriminate Hg]. injection Hg as <-.
      destruct (IH r eq_refl) as (parts & -> & F).
      exists ([n] :: parts). split; [reflexivity|].
      constructor; [unfold entryPart; rewrite ER; reflexivity|exact F].
    + destruct (node_type h n === "GROUP") eqn:EG.
      * destruct (getDrawings h f (node_subNodes h n)) as [sub|] eqn:Es; [|discriminate Hg].
        destruct (getDrawings h (S f) l) as [r|]; [|discriminate Hg]. injection Hg as <-.
        destruct (IH r eq_refl) as (parts & -> & F).
        exists (sub :: parts). split; [reflexivity|].
        constructor; [|exact F]. unfold entryPart. rewrite ER, EG.
        eapply getDrawings_expands. exact Es.
      * destruct (IH dl Hg) as (parts & -> & F).
        exists ([] :: parts). split; [reflexivity|].
        constructor; [unfold entryPart; rewrite ER, EG; reflexivity|exact F].
Qed.

(** The events of a turn that writes a pivot. *)
Lemma st_events_processDrawing (s : State) (d p : string) (c : Point2d) :
  resolvePivotNode h d = Some p ->
  centerOver h art_layers d (frame_current h) = Some c ->
  st_events (processDrawing h s d)
  = st_events s
    ++ turnEvents h d p (if needsInverse d p (useDrawingPivot h d)
                         then inversedCenter h p c (st_attrs s) else c).
Proof.
  intros Hr Hc. unfold turnEvents.
  destruct (needsInverse d p (useDrawingPivot h d)) eqn:Hn.
  - unfold processDrawing. rewrite Hr, Hc. unfold inverseDrawingPivot, inversedCenter.
    rewrite Hn. cbn [st_attrs setTextAttr].
    match goal with |- context [if ?b then _ else _] => destruct b end;
      unfold writePivot, setTextAttr, pivotWrites; cbn [st_events];
      rewrite <- !app_assoc; reflexivity.
  - unfold processDrawing. rewrite Hr, Hc. unfold inverseDrawingPivot. rewrite Hn.
    unfold writePivot, setTextAttr, pivotWrites. cbn [st_events app].
    rewrite <- !app_assoc. reflexivity.
Qed.

End Duplicates.

(** C9. [getDrawings] removes no duplicate: its result is the
    concatenation, in order, of one part per entry of its argument (the
    entry itself for a drawing, the flattened sub-nodes for a group,
    nothing otherwise), each part being what the entry yields on its own;
    so the number of occurrences of a node in the result is the sum of its
    occurrences in the parts, a list given twice yields its drawings twice,
    and a drawing listed twice comes out twice.  The entry point runs the
    main loop over the collected list: it takes one turn per entry, in
    order, and the turn of an entry with a target and a centre appends the
    writes of its pivot, whether or not the same drawing had a turn
    before. *)
Theorem collector_keeps_duplicates
    (h : Host) (fuel : nat) (s : State) (ds : list string) (i : nat) (d : string) :
  getDrawings h fuel (selection_selectedNodes h) = Some ds ->
  ds !! i = Some d ->
  (forall l dl, getDrawings h fuel l = Some dl ->
     exists parts,
       dl = concat parts /\ Forall2 (entryPart h) l parts
       /\ forall x, count_occ string_dec dl x
                    = list_sum (map (fun part => count_occ string_dec part x) parts))
  /\ (forall l dl, getDrawings h fuel l = Some dl ->
        getDrawings h fuel (l ++ l) = Some (dl ++ dl))
  /\ (forall x, node_type h x = "READ" -> getDrawings h fuel [x; x] = Some [x; x])
  /\ ANM_Set_Layer_Pivots_At_Center_Of_Drawings h fuel s
     = Some (emit (scene_endUndoRedoAccum "") (stateAt h ds s (length ds)))
  /\ stateAt h ds s (S i) = processDrawing h (stateAt h ds s i) d
  /\ (forall p c,
        resolvePivotNode h d = Some p ->
        centerOver h art_layers d (frame_current h) = Some c ->
        st_events (stateAt h ds s (S i))
        = st_events (stateAt h ds s i)
          ++ turnEvents h d p
               (if needsInverse d p (useDrawingPivot h d)
                then inversedCenter h p c (st_attrs (stateAt h ds s i)) else c)).
Proof.
  intros Hg Hi. destruct (getDrawings_fuel_pos h fuel _ _ Hg) as [f ->].
  split; [|split; [|split; [|split; [|split]]]].
  - intros l dl Hl. destruct (getDrawings_parts h f l dl Hl) as (parts & -> & F).
    exists parts. split; [reflexivity|]. split; [exact F|].
    intros x. apply count_occ_concat.
  - intros l dl Hl. rewrite getDrawings_app, Hl. reflexivity.
  - intros x Hx. apply getDrawings_drawings_only. repeat constructor; exact Hx.
  - rewrite (run_value h (S f) s ds Hg), stateAt_end.
    destruct ds as [|d0 ds']; [discriminate Hi|reflexivity].
  - apply stateAt_S. exact Hi.
  - intros p c Hr Hc. rewrite (stateAt_S h ds s i d Hi).
    apply st_events_processDrawing; assumption.
Qed.

(** The theorem when [Top/A] is selected twice, around the group [Top/G]:
    its second turn, the seventh of the loop, writes the same pivot again;
    and a group selected twice yields its drawings twice. *)
Lemma Top_A_selected_twice_is_written_twice :
  st_events (stateAt (Demo.host_with ["Top/A"; "Top/G"; "Top/A"])
               ["Top/A"; "Top/G/D1"; "Top/G/D2"; "Top/G/N/D4"; "Top/G/N/D5"; "Top/G/D3"; "Top/A"]
               Demo.start 7)
  = st_events (stateAt (Demo.host_with ["Top/A"; "Top/G"; "Top/A"])
                 ["Top/A"; "Top/G/D1"; "Top/G/D2"; "Top/G/N/D4"; "Top/G/N/D5"; "Top/G/D3";
                  "Top/A"] Demo.start 6)
    ++ pivotWrites "Top/A" zero zero ++ pivotWrites "Top/A" (of_Z 5) (of_Z 7)
  /\ getDrawings (Demo.host_with ["Top/A"; "Top/G"; "Top/A"]) 3 ["Top/G/N"; "Top/G/N"]
     = Some ["Top/G/N/D4"; "Top/G/N/D5"; "Top/G/N/D4"; "Top/G/N/D5"].
Proof.
  destruct (collector_keeps_duplicates (Demo.host_with ["Top/A"; "Top/G"; "Top/A"]) 3
              Demo.start
              ["Top/A"; "Top/G/D1"; "Top/G/D2"; "Top/G/N/D4"; "Top/G/N/D5"; "Top/G/D3"; "Top/A"]
              6 "Top/A" eq_refl eq_refl) as (_ & Hdouble & _ & _ & _ & Hturn).
  split.
  - rewrite (Hturn "Top/A" (mkPoint2d (of_Z 10) (of_Z 10)) eq_refl eq_refl).
    apply (f_equal (app _)). vm_compute. reflexivity.
  - exact (Hdouble ["Top/G/N"] ["Top/G/N/D4"; "Top/G/N/D5"] eq_refl).
Defined.

(** ** What a run may change *)

Section Frame.

Variable h : Host.

Lemma replay_changed (evs : list Event) : forall (m : AttrStore) (n attr : string),
  replay evs m !! (n, attr) <> m !! (n, attr) ->
  exists fr v, In (node_setTextAttr n attr fr v) evs.
Proof.
  induction evs as [|e evs IH]; intros m n attr Hne; simpl in Hne.
  - contradiction.
  - fold (replay evs (applyEvent m e)) in Hne.
    destruct e as [msg|msg|name|name|n' attr' fr' v'];
      try (destruct (IH _ _ _ Hne) as (fr & v & Hin); exists fr, v; right; exact Hin).
    destruct (decide ((n', attr') = (n, attr))) as [E|N].
    + injection E as -> ->. exists fr', v'. left. reflexivity.
    + simpl in Hne. destruct (IH (<[(n', attr'):=v']> m) n attr) as (fr & v & Hin).
      * rewrite lookup_insert_ne in * by exact N. exact Hne.
      * exists fr, v. right. exact Hin.
Qed.

Lemma Forall2_In_block {A B : Type} (P : A -> B -> Prop) (l : list A) (k : list B) (y : B) :
  Forall2 P l k -> In y k -> exists x, In x l /\ P x y.
Proof.
  induction 1 as [|x y' l k Hp _ IH]; intros Hin.
  - destruct Hin.
  - destruct Hin as [->|Hin].
    + exists x. split; [left; reflexivity|exact Hp].
    + destruct (IH Hin) as (x' & Hx & Hp'). exists x'. split; [right; exact Hx|exact Hp'].
Qed.

Lemma batch_writes (ds : list string) (blocks : list (list Event)) :
  Forall2 (fun d evs => exists m, drawingBlock h d m evs) ds blocks ->
  forall n attr fr v, In (node_setTextAttr n attr fr v) (concat blocks) ->
    (attr = "pivot.x" \/ attr = "pivot.y") /\ fr = 1
    /\ exists d, In d ds /\ resolvePivotNode h d = Some n /\ hasBox h d.
Proof.
  intros F n attr fr v Hin.
  apply in_concat in Hin as (evs & Hb & Hin).
  destruct (Forall2_In_block _ _ _ _ F Hb) as (d & Hd & m & B).
  destruct (drawingBlock_writes h d m evs B n attr fr v Hin) as (Hr & Hbox & Ha & Hf).
  split; [exact Ha|]. split; [exact Hf|]. exists d. auto.
Qed.

End Frame.

(** C10. In a run, every attribute write is a write of [pivot.x] or
    [pivot.y] with frame argument 1 on the resolved pivot target of a
    collected drawing that has a box; and an entry of the attribute store
    that differs after the run is such a [pivot.x] or [pivot.y].  The
    selection and the node graph are fields of the host record, which the
    run only reads. *)
Theorem only_pivot_attributes_are_written (h : Host) (fuel : nat) (s s' : State) :
  ANM_Set_Layer_Pivots_At_Center_Of_Drawings h fuel s = Some s' ->
  exists ds evs,
    getDrawings h fuel (selection_selectedNodes h) = Some ds
    /\ extends s evs s'
    /\ (forall n attr fr v, In (node_setTextAttr n attr fr v) evs ->
          (attr = "pivot.x" \/ attr = "pivot.y") /\ fr = 1
          /\ exists d, In d ds /\ resolvePivotNode h d = Some n /\ hasBox h d)
    /\ (forall n attr, st_attrs s' !! (n, attr) <> st_attrs s !! (n, attr) ->
          (attr = "pivot.x" \/ attr = "pivot.y")
          /\ exists d, In d ds /\ resolvePivotNode h d = Some n /\ hasBox h d).
Proof.
  unfold ANM_Set_Layer_Pivots_At_Center_Of_Drawings.
  destruct (getDrawings h fuel (selection_selectedNodes h)) as [ds|]; [|discriminate].
  intros Hrun.
  assert (Hev : exists evs,
             extends s evs s'
             /\ forall n attr fr v, In (node_setTextAttr n attr fr v) evs ->
                  (attr = "pivot.x" \/ attr = "pivot.y") /\ fr = 1
                  /\ exists d, In d ds /\ resolvePivotNode h d = Some n /\ hasBox h d).
  { destruct (length ds =? 0)%nat.
    - injection Hrun as <-. exists [MessageBox_information msg_select]. split.
      + apply extends_emit. intros; discriminate.
      + intros n attr fr v [E|[]]. discriminate.
    - injection Hrun as <-.
      destruct (batch_blocks h ds (emit (scene_beginUndoRedoAccum undo_name) s))
        as (blocks & F & E).
      exists ([scene_beginUndoRedoAccum undo_name] ++ concat blocks
              ++ [scene_endUndoRedoAccum ""]). split.
      + eapply extends_trans; [apply extends_emit; intros; discriminate|].
        eapply extends_trans; [exact E|]. apply extends_emit. intros; discriminate.
      + intros n attr fr v [E'|Hin]; [discriminate|].
        simpl in Hin. destruct (in_app_or _ _ _ Hin) as [Hin'|Hin'].
        * eapply batch_writes; eassumption.
        * destruct Hin' as [E'|[]]. discriminate. }
  destruct Hev as (evs & E & W).
  exists ds, evs. split; [reflexivity|]. split; [exact E|]. split; [exact W|].
  intros n attr Hne. destruct E as [_ Ea]. rewrite Ea in Hne.
  destruct (replay_changed evs _ _ _ Hne) as (fr & v & Hin).
  destruct (W n attr fr v Hin) as (Ha & _ & Hd). auto.
Qed.

(** The theorem at the run of the demonstration scene. *)
Lemma demo_run_only_writes_pivots :
  exists s',
    ANM_Set_Layer_Pivots_At_Center_Of_Drawings Demo.host 5 Demo.start = Some s'
    /\ forall n attr,
         st_attrs s' !! (n, attr) <> st_attrs Demo.start !! (n, attr) ->
         attr = "pivot.x" \/ attr = "pivot.y".
Proof.
  destruct (ANM_Set_Layer_Pivots_At_Center_Of_Drawings Demo.host 5 Demo.start) as [s'|] eqn:E.
  - exists s'. split; [reflexivity|].
    destruct (only_pivot_attributes_are_written Demo.host 5 Demo.start s' E)
      as (ds & evs & _ & _ & _ & Hf).
    intros n attr Hne. destruct (Hf n attr Hne) as [Ha _]. exact Ha.
  - vm_compute in E. discriminate E.
Defined.


(** * Further properties of the script *)

(** ** The shape of a turn *)

Section Turns.

Variable h : Host.

Lemma processDrawing_plain (s : State) (d p : string) (c : Point2d) :
  resolvePivotNode h d = Some p ->
  centerOver h art_layers d (frame_current h) = Some c ->
  needsInverse d p (useDrawingPivot h d) = false ->
  processDrawing h s d = writePivot h p c s.
Proof.
  intros Hr Hc Hn. unfold processDrawing. rewrite Hr, Hc.
  unfold inverseDrawingPivot. rewrite Hn. reflexivity.
Qed.

Lemma processDrawing_inverse (s : State) (d p : string) (c : Point2d) :
  resolvePivotNode h d = Some p ->
  centerOver h art_layers d (frame_current h) = Some c ->
  needsInverse d p (useDrawingPivot h d) = true ->
  processDrawing h s d
  = writePivot h p (inversedCenter h p c (st_attrs s))
      (setTextAttr p "pivot.y" 1 zero (setTextAttr p "pivot.x" 1 zero s)).
Proof.
  intros Hr Hc Hn. unfold processDrawing. rewrite Hr, Hc.
  unfold inverseDrawingPivot, inversedCenter. rewrite Hn. cbn [st_attrs setTextAttr].
  match goal with |- context [if ?b then _ else _] => destruct b end; reflexivity.
Qed.

Lemma processDrawing_empty (s : State) (d p : string) :
  resolvePivotNode h d = Some p ->
  centerOver h art_layers d (frame_current h) = None ->
  processDrawing h s d = trace (msg_empty d (frame_current h)) s.
Proof. intros Hr Hc. unfold processDrawing. rewrite Hr, Hc. reflexivity. Qed.

Lemma st_events_writePivot (p : string) (c : Point2d) (s : State) :
  st_events (writePivot h p c s)
  = st_events s ++ pivotWrites p (scene_fromOGLX h (pt_x c)) (scene_fromOGLY h (pt_y c)).
Proof. unfold writePivot, setTextAttr, pivotWrites. simpl. rewrite <- app_assoc. reflexivity. Qed.

Lemma st_attrs_writePivot (p : string) (c : Point2d) (s : State) :
  st_attrs (writePivot h p c s)
  = <[(p, "pivot.y") := scene_fromOGLY h (pt_y c)]>
      (<[(p, "pivot.x") := scene_fromOGLX h (pt_x c)]> (st_attrs s)).
Proof. reflexivity. Qed.

(** A resolved target is the drawing itself or a peg above it. *)
Lemma resolve_drawing_or_peg (d p : string) :
  resolvePivotNode h d = Some p ->
  (p = d /\ onParentPeg (canAnimate h d) (useDrawingPivot h d) = false)
  \/ (node_type h p = "PEG" /\ p <> ""
      /\ onParentPeg (canAnimate h d) (useDrawingPivot h d) = true).
Proof.
  intros Hr. destruct (onParentPeg (canAnimate h d) (useDrawingPivot h d)) eqn:Ho.
  - right. destruct (resolve_on_peg h d p Ho Hr) as (k & (_ & Hne & Hty & _) & _). auto.
  - left. rewrite (resolve_on_drawing h d Ho) in Hr. split; congruence.
Qed.

End Turns.

(** ** The undo bracket *)

Section Bracket.

Variable h : Host.

Lemma drawingBlock_turn_events (d : string) (m : AttrStore) (evs : list Event) :
  drawingBlock h d m evs -> Forall (fun e => isTrace e || isSetTextAttr e = true) evs.
Proof. intros B. destruct B; repeat constructor. Qed.

Lemma drawingBlock_nonempty (d : string) (m : AttrStore) (evs : list Event) :
  drawingBlock h d m evs -> (1 <= length evs)%nat.
Proof. intros B. destruct B; simpl; lia. Qed.

Lemma blocks_turn_events (ds : list string) (blocks : list (list Event)) :
  Forall2 (fun d evs => exists m, drawingBlock h d m evs) ds blocks ->
  Forall (fun e => isTrace e || isSetTextAttr e = true) (concat blocks).
Proof.
  induction 1 as [|d evs ds blocks [m B] _ IH]; simpl; [constructor|].
  apply Forall_app. split; [eapply drawingBlock_turn_events; exact B|exact IH].
Qed.

Lemma blocks_length (ds : list string) (blocks : list (list Event)) :
  Forall2 (fun d evs => exists m, drawingBlock h d m evs) ds blocks ->
  (length ds <= length (concat blocks))%nat.
Proof.
  induction 1 as [|d evs ds blocks [m B] _ IH]; simpl; [lia|].
  rewrite length_app. pose proof (drawingBlock_nonempty d m evs B). lia.
Qed.

End Bracket.

(** X1. When at least one drawing is collected, the entry point returns the
    state reached by opening the undo bracket, taking the turns of the
    collected drawings in order, and closing the bracket.  Every turn adds
    at least one event, and only log lines and attribute writes; so the
    events of the run are the opening, then at least as many log lines and
    attribute writes as there are drawings and nothing else, then the
    closing: one opening, one closing, no dialog, also when every drawing
    is skipped. *)
Theorem run_is_wrapped_in_one_undo_bracket
    (h : Host) (fuel : nat) (s : State) (ds : list string) :
  getDrawings h fuel (selection_selectedNodes h) = Some ds ->
  ds <> [] ->
  ANM_Set_Layer_Pivots_At_Center_Of_Drawings h fuel s
  = Some (emit (scene_endUndoRedoAccum "") (stateAt h ds s (length ds)))
  /\ stateAt h ds s 0 = emit (scene_beginUndoRedoAccum undo_name) s
  /\ (forall i d, ds !! i = Some d ->
        stateAt h ds s (S i) = processDrawing h (stateAt h ds s i) d
        /\ exists evs,
             st_events (stateAt h ds s (S i)) = st_events (stateAt h ds s i) ++ evs
             /\ (1 <= length evs)%nat
             /\ Forall (fun e => isTrace e || isSetTextAttr e = true) evs)
  /\ exists evs,
       st_events (emit (scene_endUndoRedoAccum "") (stateAt h ds s (length ds)))
       = st_events s ++ scene_beginUndoRedoAccum undo_name :: evs
                        ++ [scene_endUndoRedoAccum ""]
       /\ (length ds <= length evs)%nat
       /\ Forall (fun e => isTrace e || isSetTextAttr e = true) evs.
Proof.
  intros Hg Hne. split; [|split; [reflexivity|split]].
  - rewrite (run_value h fuel s ds Hg), stateAt_end.
    destruct ds as [|d ds']; [congruence|reflexivity].
  - intros i d Hi. pose proof (stateAt_S h ds s i d Hi) as Hs. split; [exact Hs|].
    destruct (processDrawing_block h (stateAt h ds s i) d) as (evs & B & [E _]).
    exists evs. split; [rewrite Hs; exact E|]. split.
    + eapply drawingBlock_nonempty. exact B.
    + eapply drawingBlock_turn_events. exact B.
  - destruct (batch_blocks h ds (emit (scene_beginUndoRedoAccum undo_name) s))
      as (blocks & F & [E _]).
    pose proof (blocks_turn_events h ds blocks F) as Hall.
    pose proof (blocks_length h ds blocks F) as Hlen.
    exists (concat blocks). split; [|split; [exact Hlen|exact Hall]].
    rewrite stateAt_end. cbn [emit st_events]. rewrite E. cbn [emit st_events].
    rewrite <- !app_assoc. reflexivity.
Qed.

(** The theorem at the demonstration scene, when the only selected drawing
    is the empty [Top/E]. *)
Lemma bracket_around_a_skipped_drawing :
  exists s',
    ANM_Set_Layer_Pivots_At_Center_Of_Drawings (Demo.host_with ["Top/E"]) 1 Demo.start = Some s'
    /\ st_events s'
       = [scene_beginUndoRedoAccum undo_name;
          MessageLog_trace (msg_empty "Top/E" 12);
          scene_endUndoRedoAccum ""].
Proof.
  destruct (run_is_wrapped_in_one_undo_bracket (Demo.host_with ["Top/E"]) 1 Demo.start
              ["Top/E"] eq_refl ltac:(discriminate)) as (R & _).
  eexists. split; [exact R|]. vm_compute. reflexivity.
Defined.

(** ** The drawing's two attributes and the inversion *)

Section Decision.

Variable h : Host.

Lemma needsInverse_on_drawing (d mode : string) :
  needsInverse d d mode = (mode === DRAWING_LAYER).
Proof. unfold needsInverse. rewrite String.eqb_refl. reflexivity. Qed.

Lemma needsInverse_on_peg (d p mode : string) :
  p <> d -> needsInverse d p mode = (mode === PARENT_PEG).
Proof.
  intros Hne. unfold needsInverse.
  assert (E : (d === p) = false) by (apply String.eqb_neq; congruence).
  rewrite E. simpl. apply orb_false_r.
Qed.

(** Whether the inversion applies, in terms of the drawing's attributes. *)
Lemma needsInverse_decision (d p : string) :
  node_type h d = "READ" -> resolvePivotNode h d = Some p ->
  needsInverse d p (useDrawingPivot h d)
  = (useDrawingPivot h d === PARENT_PEG)
    || (canAnimate h d && (useDrawingPivot h d === DRAWING_LAYER)).
Proof.
  intros Hd Hr. destruct (resolve_drawing_or_peg h d p Hr) as [[-> Ho]|(Hty & _ & Ho)].
  - rewrite needsInverse_on_drawing. unfold onParentPeg in Ho.
    destruct (canAnimate h d); [|discriminate]. simpl in Ho. rewrite Ho. reflexivity.
  - rewrite needsInverse_on_peg by (intros ->; rewrite Hd in Hty; discriminate).
    unfold onParentPeg in Ho.
    destruct (canAnimate h d); simpl in *; [rewrite Ho; reflexivity|].
    rewrite orb_false_r. reflexivity.
Qed.

End Decision.

(** X2. An animatable drawing in "Apply Embedded Pivot on Parent Peg" mode
    is handled like a non-animatable one as to the target: a resolved target
    is the first peg above the drawing and differs from it.  The inversion
    then always applies: when the drawing has a box the turn is the reset of
    the peg's pivot followed by the final pivot of the peg.  When no peg is
    found the turn logs the notice that says the drawing "is not
    animatable". *)
Theorem animatable_drawing_in_parent_peg_mode (h : Host) (s : State) (d : string) :
  node_type h d = "READ" ->
  canAnimate h d = true ->
  useDrawingPivot h d = PARENT_PEG ->
  (forall p, resolvePivotNode h d = Some p ->
     p <> d /\ nearestPeg h d p
     /\ forall c, centerOver h art_layers d (frame_current h) = Some c ->
          st_events (processDrawing h s d)
          = st_events s ++ pivotWrites p zero zero
              ++ pivotWrites p (scene_fromOGLX h (pt_x (inversedCenter h p c (st_attrs s))))
                               (scene_fromOGLY h (pt_y (inversedCenter h p c (st_attrs s)))))
  /\ (resolvePivotNode h d = None ->
      st_events (processDrawing h s d)
      = st_events s ++
        [MessageLog_trace
           (d +:+ " is not animatable, and it does not have a parent peg to set its pivot position.")]).
Proof.
  intros Hd Ha Hm.
  assert (Ho : onParentPeg (canAnimate h d) (useDrawingPivot h d) = true).
  { unfold onParentPeg. rewrite Ha, Hm, String.eqb_refl. reflexivity. }
  split.
  - intros p Hr. destruct (resolve_on_peg h d p Ho Hr) as (k & Hk & _).
    assert (Hne : p <> d).
    { destruct Hk as (_ & _ & Hty & _). intros ->. rewrite Hd in Hty. discriminate. }
    split; [exact Hne|]. split; [exists k; exact Hk|].
    intros c Hc. rewrite (processDrawing_inverse h s d p c Hr Hc).
    + rewrite st_events_writePivot. cbn [setTextAttr st_events pivotWrites].
      rewrite <- !app_assoc. reflexivity.
    + rewrite needsInverse_on_peg by exact Hne. rewrite Hm. apply String.eqb_refl.
  - intros Hr. rewrite (processDrawing_no_target h s d Hr). reflexivity.
Qed.

(** The theorem at [Top/B] made animatable: its mode is "Apply Embedded
    Pivot on Parent Peg", its centre (10, 10), the pivot on the peg (2, 4). *)
Lemma animatable_Top_B_writes_its_peg :
  st_events (processDrawing Rig.host Demo.start "Top/B")
  = pivotWrites "Top/Peg" zero zero ++ pivotWrites "Top/Peg" (of_Z 8) (of_Z 6).
Proof.
  destruct (animatable_drawing_in_parent_peg_mode Rig.host Demo.start "Top/B"
              eq_refl eq_refl eq_refl) as [Hp _].
  destruct (Hp "Top/Peg" eq_refl) as (_ & _ & He).
  rewrite (He (mkPoint2d (of_Z 10) (of_Z 10)) eq_refl). vm_compute. reflexivity.
Defined.

(** X3. For a drawing node with a resolved target [p] and a centre [c]: the
    inversion applies exactly when the mode is "Apply Embedded Pivot on
    Parent Peg", or the drawing is animatable and the mode is "Apply
    Embedded Pivot on Drawing Layer".  Then the turn is four writes on [p],
    the reset and the final pivot.  Otherwise (for instance a drawing that
    is not animatable in "Apply Embedded Pivot on Drawing Layer" mode) the
    turn is two writes, the centre as computed, and nothing is reset. *)
Theorem inversion_follows_the_two_attributes
    (h : Host) (s : State) (d p : string) (c : Point2d) :
  node_type h d = "READ" ->
  resolvePivotNode h d = Some p ->
  centerOver h art_layers d (frame_current h) = Some c ->
  (useDrawingPivot h d = PARENT_PEG
   \/ (canAnimate h d = true /\ useDrawingPivot h d = DRAWING_LAYER) ->
   st_events (processDrawing h s d)
   = st_events s ++ pivotWrites p zero zero
       ++ pivotWrites p (scene_fromOGLX h (pt_x (inversedCenter h p c (st_attrs s))))
                        (scene_fromOGLY h (pt_y (inversedCenter h p c (st_attrs s)))))
  /\ (useDrawingPivot h d <> PARENT_PEG ->
      canAnimate h d = false \/ useDrawingPivot h d <> DRAWING_LAYER ->
      processDrawing h s d = writePivot h p c s
      /\ st_events (processDrawing h s d)
         = st_events s ++ pivotWrites p (scene_fromOGLX h (pt_x c)) (scene_fromOGLY h (pt_y c))).
Proof.
  intros Hd Hr Hc. pose proof (needsInverse_decision h d p Hd Hr) as Hn. split.
  - intros Hyes.
    assert (Ht : needsInverse d p (useDrawingPivot h d) = true).
    { rewrite Hn. destruct Hyes as [->|[-> ->]].
      - rewrite String.eqb_refl. reflexivity.
      - rewrite String.eqb_refl. apply orb_true_r. }
    rewrite (processDrawing_inverse h s d p c Hr Hc Ht), st_events_writePivot.
    cbn [setTextAttr st_events pivotWrites]. rewrite <- !app_assoc. reflexivity.
  - intros Hpp Hno.
    assert (Hf : needsInverse d p (useDrawingPivot h d) = false).
    { rewrite Hn. apply String.eqb_neq in Hpp. rewrite Hpp. simpl.
      destruct Hno as [->|Hdl]; [reflexivity|].
      apply String.eqb_neq in Hdl. rewrite Hdl. apply andb_false_r. }
    rewrite (processDrawing_plain h s d p c Hr Hc Hf).
    split; [reflexivity|apply st_events_writePivot].
Qed.

(** The theorem at [Top/B] of the demonstration scene: not animatable, in
    "Apply Embedded Pivot on Parent Peg" mode, the peg's own pivot zero. *)
Lemma Top_B_resets_then_writes_its_peg :
  st_events (processDrawing Demo.host Demo.start "Top/B")
  = pivotWrites "Top/Peg" zero zero ++ pivotWrites "Top/Peg" (of_Z 10) (of_Z 10).
Proof.
  destruct (inversion_follows_the_two_attributes Demo.host Demo.start "Top/B" "Top/Peg"
              (mkPoint2d (of_Z 10) (of_Z 10)) eq_refl eq_refl eq_refl) as [Hyes _].
  rewrite (Hyes (or_introl eq_refl)). vm_compute. reflexivity.
Defined.

(** ** Accounting for a batch *)

Section Accounting.

Variable h : Host.

Lemma countTraces_app (evs evs' : list Event) :
  countTraces (evs ++ evs') = (countTraces evs + countTraces evs')%nat.
Proof. unfold countTraces. rewrite List.filter_app, length_app. reflexivity. Qed.

Lemma countSetTextAttr_app (evs evs' : list Event) :
  countSetTextAttr (evs ++ evs') = (countSetTextAttr evs + countSetTextAttr evs')%nat.
Proof. unfold countSetTextAttr. rewrite List.filter_app, length_app. reflexivity. Qed.

Lemma drawingBlock_counts_events (d : string) (m : AttrStore) (evs : list Event) :
  drawingBlock h d m evs ->
  countTraces evs = (if written h d then 0 else 1)%nat
  /\ countSetTextAttr evs
     = ((if written h d then 2 else 0) + (if inverted h d then 2 else 0))%nat.
Proof.
  intros B. unfold written, inverted.
  destruct B as [Hr|p Hr Hc|p c Hr Hc Hn|p c Hr Hc Hn]; rewrite Hr; try rewrite Hc;
    try rewrite Hn; split; reflexivity.
Qed.

Lemma blocks_count_events (ds : list string) (blocks : list (list Event)) :
  Forall2 (fun d evs => exists m, drawingBlock h d m evs) ds blocks ->
  countTraces (concat blocks) = length (List.filter (fun d => negb (written h d)) ds)
  /\ countSetTextAttr (concat blocks)
     = (2 * length (List.filter (written h) ds)
        + 2 * length (List.filter (inverted h) ds))%nat.
Proof.
  induction 1 as [|d evs ds blocks [m B] _ [IH1 IH2]]; simpl; [split; reflexivity|].
  rewrite countTraces_app, countSetTextAttr_app, IH1, IH2.
  destruct (drawingBlock_counts_events d m evs B) as [-> ->].
  destruct (written h d), (inverted h d); simpl; split; lia.
Qed.

End Accounting.

(** X4. Over a batch, every drawing is accounted for: the turns log exactly
    one line per drawing that gets no pivot (no target, or no box), and
    perform two attribute writes per drawing that gets one, plus two more
    per drawing whose pivot is inverted; they emit nothing else. *)
Theorem batch_accounts_for_every_drawing (h : Host) (ds : list string) (s : State) :
  exists evs,
    extends s evs (fold_left (processDrawing h) ds s)
    /\ countTraces evs = length (List.filter (fun d => negb (written h d)) ds)
    /\ countSetTextAttr evs
       = (2 * length (List.filter (written h) ds)
          + 2 * length (List.filter (inverted h) ds))%nat
    /\ Forall (fun e => isTrace e || isSetTextAttr e = true) evs.
Proof.
  destruct (batch_blocks h ds s) as (blocks & F & E).
  exists (concat blocks). split; [exact E|].
  destruct (blocks_count_events h ds blocks F) as [H1 H2].
  split; [exact H1|]. split; [exact H2|]. eapply blocks_turn_events. exact F.
Qed.

(** The theorem at the nine drawings of the demonstration scene: seven log
    lines and eight writes. *)
Lemma demo_batch_counts :
  exists evs,
    extends Demo.start evs
      (fold_left (processDrawing Demo.host)
         ["Top/A"; "Top/B"; "Top/E"; "Top/L"; "Top/G/D1"; "Top/G/D2";
          "Top/G/N/D4"; "Top/G/N/D5"; "Top/G/D3"] Demo.start)
    /\ countTraces evs = 7%nat /\ countSetTextAttr evs = 8%nat.
Proof.
  destruct (batch_accounts_for_every_drawing Demo.host
              ["Top/A"; "Top/B"; "Top/E"; "Top/L"; "Top/G/D1"; "Top/G/D2";
               "Top/G/N/D4"; "Top/G/N/D5"; "Top/G/D3"] Demo.start)
    as (evs & E & H1 & H2 & _).
  exists evs. split; [exact E|]. split; [rewrite H1|rewrite H2]; vm_compute; reflexivity.
Defined.

(** ** The attributes after a turn *)

Section Stored.

Variable h : Host.

Lemma insert_pivots_over (m : AttrStore) (p : string) (a b a' b' : number) :
  <[(p, "pivot.y") := b']> (<[(p, "pivot.x") := a']>
     (<[(p, "pivot.y") := b]> (<[(p, "pivot.x") := a]> m)))
  = <[(p, "pivot.y") := b']> (<[(p, "pivot.x") := a']> m).
Proof.
  apply map_eq. intros k. rewrite !lookup_insert.
  repeat case_decide; reflexivity.
Qed.

Lemma inversedCenter_after_pivots (m : AttrStore) (p : string) (c : Point2d) (a b : number) :
  inversedCenter h p c (<[(p, "pivot.y") := b]> (<[(p, "pivot.x") := a]> m))
  = inversedCenter h p c m.
Proof. unfold inversedCenter. rewrite insert_pivots_over. reflexivity. Qed.

(** The centre a turn writes, given the attributes [m] before the turn. *)
Lemma st_attrs_processDrawing (s : State) (d p : string) (c : Point2d) :
  resolvePivotNode h d = Some p ->
  centerOver h art_layers d (frame_current h) = Some c ->
  st_attrs (processDrawing h s d)
  = let c' := if needsInverse d p (useDrawingPivot h d)
              then inversedCenter h p c (st_attrs s) else c in
    <[(p, "pivot.y") := scene_fromOGLY h (pt_y c')]>
      (<[(p, "pivot.x") := scene_fromOGLX h (pt_x c')]> (st_attrs s)).
Proof.
  intros Hr Hc. destruct (needsInverse d p (useDrawingPivot h d)) eqn:Hn.
  - rewrite (processDrawing_inverse h s d p c Hr Hc Hn), st_attrs_writePivot.
    cbn [setTextAttr st_attrs]. apply insert_pivots_over.
  - rewrite (processDrawing_plain h s d p c Hr Hc Hn). apply st_attrs_writePivot.
Qed.

Lemma st_attrs_processDrawing_skipped (s : State) (d : string) :
  written h d = false -> st_attrs (processDrawing h s d) = st_attrs s.
Proof.
  unfold written, processDrawing.
  destruct (resolvePivotNode h d) as [p|]; [|reflexivity].
  destruct (centerOver h art_layers d (frame_current h)); [discriminate|reflexivity].
Qed.

End Stored.

(** X5. After the turn of a drawing that gets a pivot, the attributes are
    those from before the turn with [pivot.x] and [pivot.y] of the target
    set to the final pivot: reading them back gives the values of lines
    145-146, not the zeros of the reset, and every other attribute is as it
    was. *)
Theorem stored_pivot_after_a_turn (h : Host) (s : State) (d p : string) (c : Point2d) :
  resolvePivotNode h d = Some p ->
  centerOver h art_layers d (frame_current h) = Some c ->
  exists c',
    c' = (if needsInverse d p (useDrawingPivot h d)
          then inversedCenter h p c (st_attrs s) else c)
    /\ st_attrs (processDrawing h s d) !! (p, "pivot.x") = Some (scene_fromOGLX h (pt_x c'))
    /\ st_attrs (processDrawing h s d) !! (p, "pivot.y") = Some (scene_fromOGLY h (pt_y c'))
    /\ forall k, k <> (p, "pivot.x") -> k <> (p, "pivot.y") ->
                 st_attrs (processDrawing h s d) !! k = st_attrs s !! k.
Proof.
  intros Hr Hc. eexists. split; [reflexivity|].
  rewrite (st_attrs_processDrawing h s d p c Hr Hc). cbv zeta.
  split; [|split].
  - rewrite lookup_insert_ne by discriminate. apply lookup_insert_eq.
  - apply lookup_insert_eq.
  - intros k Hx Hy. rewrite !lookup_insert_ne by congruence. reflexivity.
Qed.

(** The theorem at [Top/A] of the demonstration scene. *)
Lemma stored_pivot_of_Top_A :
  st_attrs (processDrawing Demo.host Demo.start "Top/A") !! ("Top/A", "pivot.x") = Some (of_Z 5)
  /\ st_attrs (processDrawing Demo.host Demo.start "Top/A") !! ("Top/A", "pivot.y")
     = Some (of_Z 7).
Proof.
  destruct (stored_pivot_after_a_turn Demo.host Demo.start "Top/A" "Top/A"
              (mkPoint2d (of_Z 10) (of_Z 10)) eq_refl eq_refl) as (c' & Ec & Hx & Hy & _).
  rewrite Hx, Hy, Ec. split; vm_compute; reflexivity.
Defined.

(** X6. Taking the turn of a drawing twice in a row leaves the same
    attributes as taking it once: the reset of lines 131-132 makes the pivot
    read back independent of what the first turn wrote. *)
Theorem turn_is_idempotent_on_attributes (h : Host) (s : State) (d : string) :
  st_attrs (processDrawing h (processDrawing h s d) d) = st_attrs (processDrawing h s d).
Proof.
  destruct (written h d) eqn:Hw.
  - unfold written in Hw.
    destruct (resolvePivotNode h d) as [p|] eqn:Hr; [|discriminate].
    destruct (centerOver h art_layers d (frame_current h)) as [c|] eqn:Hc; [|discriminate].
    rewrite (st_attrs_processDrawing h (processDrawing h s d) d p c Hr Hc).
    rewrite (st_attrs_processDrawing h s d p c Hr Hc). cbv zeta.
    rewrite inversedCenter_after_pivots. apply insert_pivots_over.
  - rewrite !st_attrs_processDrawing_skipped by exact Hw. reflexivity.
Qed.

(** ** The attributes after a batch *)

Section LastWrites.

Lemma applyWrites_app (ws ws' : list ((string * string) * number)) (m : AttrStore) :
  applyWrites (ws ++ ws') m = applyWrites ws' (applyWrites ws m).
Proof. unfold applyWrites. apply fold_left_app. Qed.

Lemma lookup_applyWrites (ws : list ((string * string) * number)) :
  forall (m : AttrStore) (k : string * string),
    applyWrites ws m !! k
    = match lastWrite k ws with Some v => Some v | None => m !! k end.
Proof.
  induction ws as [|[k' v] ws IH]; intros m k; simpl; [reflexivity|].
  change (applyWrites ws (<[k' := v]> m) !! k
          = match match lastWrite k ws with
                  | Some v' => Some v'
                  | None => if decide (k' = k) then Some v else None
                  end with Some v0 => Some v0 | None => m !! k end).
  rewrite IH. destruct (lastWrite k ws); [reflexivity|].
  rewrite lookup_insert. destruct (decide (k' = k)); reflexivity.
Qed.

Lemma applyWrites_twice (ws : list ((string * string) * number)) (m : AttrStore) :
  applyWrites ws (applyWrites ws m) = applyWrites ws m.
Proof.
  apply map_eq. intros k. rewrite !lookup_applyWrites.
  destruct (lastWrite k ws); reflexivity.
Qed.

Lemma lastWrite_app (k : string * string) (ws ws' : list ((string * string) * number)) :
  lastWrite k (ws ++ ws')
  = match lastWrite k ws' with Some v => Some v | None => lastWrite k ws end.
Proof.
  induction ws as [|[k' v] ws IH]; simpl.
  - destruct (lastWrite k ws'); reflexivity.
  - rewrite IH. destruct (lastWrite k ws'); reflexivity.
Qed.

Lemma lastWrite_absent (k : string * string) (ws : list ((string * string) * number)) :
  (forall kv, In kv ws -> fst kv <> k) -> lastWrite k ws = None.
Proof.
  induction ws as [|[k' v] ws IH]; intros H; simpl; [reflexivity|].
  rewrite IH by (intros kv Hin; apply H; right; exact Hin).
  destruct (decide (k' = k)) as [E|_]; [|reflexivity].
  exfalso. exact (H (k', v) (or_introl eq_refl) E).
Qed.

Variable h : Host.
Hypothesis local : pivotIsLocal h.

Lemma inversedCenter_local (p : string) (c : Point2d) (m : AttrStore) :
  inversedCenter h p c m = inversedCenter h p c ∅.
Proof.
  unfold inversedCenter.
  rewrite (local (<[(p, "pivot.y") := zero]> (<[(p, "pivot.x") := zero]> m))
                 (<[(p, "pivot.y") := zero]> (<[(p, "pivot.x") := zero]> ∅))).
  - reflexivity.
  - rewrite !(lookup_insert_ne _ (p, "pivot.y")) by discriminate.
    rewrite !lookup_insert_eq. reflexivity.
  - rewrite !lookup_insert_eq. reflexivity.
Qed.

Lemma st_attrs_processDrawing_local (s : State) (d : string) :
  st_attrs (processDrawing h s d) = applyWrites (turnWrites h d) (st_attrs s).
Proof.
  unfold turnWrites. destruct (written h d) eqn:Hw; unfold written in Hw.
  - destruct (resolvePivotNode h d) as [p|] eqn:Hr; [|discriminate].
    destruct (centerOver h art_layers d (frame_current h)) as [c|] eqn:Hc; [|discriminate].
    rewrite (st_attrs_processDrawing h s d p c Hr Hc). cbv zeta.
    unfold finalCenter. rewrite inversedCenter_local. reflexivity.
  - rewrite st_attrs_processDrawing_skipped by exact Hw.
    destruct (resolvePivotNode h d) as [p|]; [|reflexivity].
    destruct (centerOver h art_layers d (frame_current h)); [discriminate|reflexivity].
Qed.

Lemma st_attrs_batch_local (ds : list string) : forall s,
  st_attrs (fold_left (processDrawing h) ds s)
  = applyWrites (flat_map (turnWrites h) ds) (st_attrs s).
Proof.
  induction ds as [|d ds IH]; intros s; simpl; [reflexivity|].
  rewrite IH, st_attrs_processDrawing_local, applyWrites_app. reflexivity.
Qed.

Lemma turnWrites_keys (d : string) (kv : (string * string) * number) :
  In kv (turnWrites h d) ->
  written h d = true /\ resolvePivotNode h d = Some (fst (fst kv)).
Proof.
  unfold turnWrites, written.
  destruct (resolvePivotNode h d) as [p|]; [|intros []].
  destruct (centerOver h art_layers d (frame_current h)); [|intros []].
  intros [<-|[<-|[]]]; split; reflexivity.
Qed.

End LastWrites.

(** X7. When the resolved pivot of a node depends on that node's own
    [pivot.x] and [pivot.y] only, the attributes after a batch are the
    attributes before it overwritten, in the order of the batch, by the
    pivot of each drawing that gets one; the pivot written for a drawing
    does not depend on the turns before.  So each attribute holds the value
    of the last write on it, and when several drawings share a target the
    last of them decides its pivot. *)
Theorem attributes_after_a_batch (h : Host) (ds : list string) (s : State) :
  pivotIsLocal h ->
  (forall k,
     st_attrs (fold_left (processDrawing h) ds s) !! k
     = match lastWrite k (flat_map (turnWrites h) ds) with
       | Some v => Some v
       | None => st_attrs s !! k
       end)
  /\ (forall ds1 d ds2 p c,
        ds = ds1 ++ d :: ds2 ->
        resolvePivotNode h d = Some p ->
        centerOver h art_layers d (frame_current h) = Some c ->
        (forall d', In d' ds2 -> written h d' = true -> resolvePivotNode h d' <> Some p) ->
        st_attrs (fold_left (processDrawing h) ds s) !! (p, "pivot.x")
        = Some (scene_fromOGLX h (pt_x (finalCenter h d p c)))
        /\ st_attrs (fold_left (processDrawing h) ds s) !! (p, "pivot.y")
           = Some (scene_fromOGLY h (pt_y (finalCenter h d p c)))).
Proof.
  intros Hl.
  assert (Hk : forall k,
             st_attrs (fold_left (processDrawing h) ds s) !! k
             = match lastWrite k (flat_map (turnWrites h) ds) with
               | Some v => Some v
               | None => st_attrs s !! k
               end).
  { intros k. rewrite (st_attrs_batch_local h Hl). apply lookup_applyWrites. }
  split; [exact Hk|].
  intros ds1 d ds2 p c -> Hr Hc Hlater.
  assert (Hnone : forall attr, lastWrite (p, attr) (flat_map (turnWrites h) ds2) = None).
  { intros attr. apply lastWrite_absent. intros kv Hin E.
    apply in_flat_map in Hin as (d' & Hd' & Hin).
    destruct (turnWrites_keys h d' kv Hin) as [Hw Hr'].
    apply (Hlater d' Hd' Hw). rewrite Hr', E. reflexivity. }
  rewrite !Hk. rewrite flat_map_app. simpl flat_map.
  rewrite !lastWrite_app, !Hnone.
  unfold turnWrites at 1 3. rewrite Hr, Hc. simpl lastWrite.
  destruct (decide ((p, "pivot.y") = (p, "pivot.x"))) as [E|_]; [discriminate E|].
  destruct (decide ((p, "pivot.x") = (p, "pivot.x"))) as [_|N]; [|contradiction].
  destruct (decide ((p, "pivot.y") = (p, "pivot.y"))) as [_|N]; [|contradiction].
  split; reflexivity.
Qed.

(** The theorem at the scene where [Top/B] and [Top/L] share [Top/Peg]:
    after the batch the peg holds the pivot of [Top/L], (1, 1). *)
Lemma shared_peg_gets_the_last_pivot :
  st_attrs (fold_left (processDrawing Shared.host) ["Top/B"; "Top/L"] Demo.start)
    !! ("Top/Peg", "pivot.x") = Some (of_Z 1)
  /\ st_attrs (fold_left (processDrawing Shared.host) ["Top/B"; "Top/L"] Demo.start)
       !! ("Top/Peg", "pivot.y") = Some (of_Z 1).
Proof.
  destruct (attributes_after_a_batch Shared.host ["Top/B"; "Top/L"] Demo.start) as [_ Hlast].
  - intros m m' n fr Hx Hy. simpl. unfold Demo.pivot_of, Demo.attr_or_zero.
    rewrite Hx, Hy. reflexivity.
  - destruct (Hlast ["Top/B"] "Top/L" [] "Top/Peg" (mkPoint2d (of_Z 1) (of_Z 1))
                eq_refl eq_refl eq_refl) as [Hx Hy].
    + intros d' [].
    + rewrite Hx, Hy. split; vm_compute; reflexivity.
Defined.


(** X8. When the resolved pivot of a node depends on that node's own
    [pivot.x] and [pivot.y] only, running the script a second time on the
    result of a first run leaves every attribute as the first run left it. *)
Theorem second_run_changes_no_attribute (h : Host) (fuel : nat) (s s1 s2 : State) :
  pivotIsLocal h ->
  ANM_Set_Layer_Pivots_At_Center_Of_Drawings h fuel s = Some s1 ->
  ANM_Set_Layer_Pivots_At_Center_Of_Drawings h fuel s1 = Some s2 ->
  st_attrs s2 = st_attrs s1.
Proof.
  intros Hl. unfold ANM_Set_Layer_Pivots_At_Center_Of_Drawings.
  destruct (getDrawings h fuel (selection_selectedNodes h)) as [ds|]; [|discriminate].
  destruct (length ds =? 0)%nat.
  - intros [= <-] [= <-]. reflexivity.
  - intros [= <-] [= <-]. cbn [emit st_attrs].
    rewrite !(st_attrs_batch_local h Hl). cbn [emit st_attrs].
    rewrite (st_attrs_batch_local h Hl). cbn [emit st_attrs].
    apply applyWrites_twice.
Qed.

(** The theorem at two runs over the demonstration scene. *)
Lemma demo_second_run_changes_nothing :
  exists s1 s2,
    ANM_Set_Layer_Pivots_At_Center_Of_Drawings Demo.host 3 Demo.start = Some s1
    /\ ANM_Set_Layer_Pivots_At_Center_Of_Drawings Demo.host 3 s1 = Some s2
    /\ st_attrs s2 = st_attrs s1.
Proof.
  destruct (ANM_Set_Layer_Pivots_At_Center_Of_Drawings Demo.host 3 Demo.start)
    as [s1|] eqn:E1; [|vm_compute in E1; discriminate E1].
  destruct (ANM_Set_Layer_Pivots_At_Center_Of_Drawings Demo.host 3 s1) as [s2|] eqn:E2.
  2:{ unfold ANM_Set_Layer_Pivots_At_Center_Of_Drawings in E2.
      destruct (getDrawings Demo.host 3 (selection_selectedNodes Demo.host)) as [ds|] eqn:G;
        [|vm_compute in G; discriminate G].
      destruct (length ds =? 0)%nat; discriminate E2. }
  exists s1, s2. split; [reflexivity|]. split; [exact E2|].
  apply (second_run_changes_no_attribute Demo.host 3 Demo.start s1 s2); [|exact E1|exact E2].
  intros m m' n fr Hx Hy. simpl. unfold Demo.pivot_of, Demo.attr_or_zero.
  rewrite Hx, Hy. reflexivity.
Defined.


(** ** Where pivots may land *)

Section Targets.

Variable h : Host.

Lemma traverse_loop_peg_or_empty (n : nat) : forall src,
  fst (traverse_loop h n src) = ""
  \/ node_type h (fst (traverse_loop h n src)) = "PEG".
Proof.
  induction n as [|n IH]; intros src; simpl; [left; reflexivity|].
  destruct (String.eqb_spec src "") as [_|_]; [left; reflexivity|].
  destruct (String.eqb_spec (node_type h src) "PEG") as [E|_]; [right; exact E|].
  specialize (IH (node_srcNode h src 0)).
  destruct (traverse_loop h n (node_srcNode h src 0)) as [r seen]. exact IH.
Qed.

(** What a run emits, and where its attribute writes come from. *)
Lemma run_events (fuel : nat) (s s' : State) :
  ANM_Set_Layer_Pivots_At_Center_Of_Drawings h fuel s = Some s' ->
  exists ds evs,
    getDrawings h fuel (selection_selectedNodes h) = Some ds
    /\ extends s evs s'
    /\ forall n attr fr v, In (node_setTextAttr n attr fr v) evs ->
         exists d, In d ds /\ resolvePivotNode h d = Some n /\ hasBox h d.
Proof.
  unfold ANM_Set_Layer_Pivots_At_Center_Of_Drawings.
  destruct (getDrawings h fuel (selection_selectedNodes h)) as [ds|]; [|discriminate].
  intros Hrun. exists ds.
  destruct (length ds =? 0)%nat; injection Hrun as <-.
  - exists [MessageBox_information msg_select].
    split; [reflexivity|]. split; [apply extends_emit; intros; discriminate|].
    intros n attr fr v [E|[]]. discriminate E.
  - destruct (batch_blocks h ds (emit (scene_beginUndoRedoAccum undo_name) s))
      as (blocks & F & E).
    exists ([scene_beginUndoRedoAccum undo_name] ++ concat blocks
            ++ [scene_endUndoRedoAccum ""]).
    split; [reflexivity|]. split.
    + eapply extends_trans; [apply extends_emit; intros; discriminate|].
      eapply extends_trans; [exact E|]. apply extends_emit. intros; discriminate.
    + intros n attr fr v [E'|Hin]; [discriminate E'|].
      simpl in Hin. destruct (in_app_or _ _ _ Hin) as [Hin'|[E'|[]]]; [|discriminate E'].
      destruct (batch_writes h ds blocks F n attr fr v Hin') as (_ & _ & Hd). exact Hd.
Qed.

End Targets.

(** X9. The helper [traverseChainUpToFindPeg] returns the empty reference or
    a node of type "PEG", never another node.  Hence, in a run, every
    attribute write is on a collected drawing node or on a peg: no node of
    another type, such as a node walked past on the way up, is written. *)
Theorem pivots_land_on_drawings_or_pegs (h : Host) (fuel : nat) (s s' : State) :
  ANM_Set_Layer_Pivots_At_Center_Of_Drawings h fuel s = Some s' ->
  (forall lastNode,
     traverseChainUpToFindPeg h lastNode = ""
     \/ node_type h (traverseChainUpToFindPeg h lastNode) = "PEG")
  /\ exists evs,
       extends s evs s'
       /\ forall n attr fr v, In (node_setTextAttr n attr fr v) evs ->
            node_type h n = "READ" \/ node_type h n = "PEG".
Proof.
  intros Hrun. split.
  - intros lastNode. unfold traverseChainUpToFindPeg, traverseChainUpToFindPeg_seen.
    apply traverse_loop_peg_or_empty.
  - destruct (run_events h fuel s s' Hrun) as (ds & evs & Hg & E & W).
    exists evs. split; [exact E|].
    intros n attr fr v Hin. destruct (W n attr fr v Hin) as (d & Hd & Hr & _).
    pose proof (expands_all_drawings h _ _ (getDrawings_expands h _ _ _ Hg)) as Hall.
    rewrite List.Forall_forall in Hall. specialize (Hall d Hd).
    destruct (resolve_drawing_or_peg h d n Hr) as [[-> _]|(Hty & _)]; auto.
Qed.

(** The theorem at the run of the demonstration scene. *)
Lemma demo_run_writes_drawings_and_pegs :
  exists s',
    ANM_Set_Layer_Pivots_At_Center_Of_Drawings Demo.host 3 Demo.start = Some s'
    /\ forall n attr fr v, In (node_setTextAttr n attr fr v) (st_events s') ->
         node_type Demo.host n = "READ" \/ node_type Demo.host n = "PEG".
Proof.
  destruct (ANM_Set_Layer_Pivots_At_Center_Of_Drawings Demo.host 3 Demo.start)
    as [s'|] eqn:E; [|vm_compute in E; discriminate E].
  exists s'. split; [reflexivity|].
  destruct (pivots_land_on_drawings_or_pegs Demo.host 3 Demo.start s' E)
    as (_ & evs & [Ev _] & W).
  rewrite Ev. exact W.
Defined.

(** ** What the collector reaches *)

Section Reach.

Variable h : Host.

Lemma inside_incl (l l' : list string) (d : string) :
  incl l l' -> inside h l d -> inside h l' d.
Proof.
  intros Hi H. destruct H as [l d Hin Hd|l g d Hin NR HG Hs].
  - apply inside_here; auto.
  - eapply inside_group; eauto.
Qed.

Lemma expands_inside (l ds : list string) :
  expands h l ds -> forall d, In d ds -> inside h l d.
Proof.
  induction 1 as [|n l r HR _ IH|n l sub r NR HG _ IHs _ IH|n l r NR NG _ IH]; intros d Hin.
  - destruct Hin.
  - destruct Hin as [<-|Hin].
    + apply inside_here; [left; reflexivity|exact HR].
    + eapply inside_incl; [|apply IH; exact Hin]. apply incl_tl, incl_refl.
  - apply in_app_or in Hin as [Hin|Hin].
    + eapply inside_group; [left; reflexivity|exact NR|exact HG|apply IHs; exact Hin].
    + eapply inside_incl; [|apply IH; exact Hin]. apply incl_tl, incl_refl.
  - eapply inside_incl; [|apply IH; exact Hin]. apply incl_tl, incl_refl.
Qed.

Lemma expands_keeps_drawing (l ds : list string) (d : string) :
  expands h l ds -> In d l -> node_type h d = "READ" -> In d ds.
Proof.
  induction 1 as [|n l r HR _ IH|n l sub r NR HG _ _ _ IH|n l r NR NG _ IH]; intros Hin Hd.
  - destruct Hin.
  - destruct Hin as [->|Hin]; [left; reflexivity|right; auto].
  - destruct Hin as [->|Hin]; [contradiction|]. apply in_or_app. right. auto.
  - destruct Hin as [->|Hin]; [contradiction|]. auto.
Qed.

Lemma expands_keeps_group (l ds : list string) (g : string) :
  expands h l ds -> In g l -> node_type h g <> "READ" -> node_type h g = "GROUP" ->
  exists sub, expands h (node_subNodes h g) sub /\ incl sub ds.
Proof.
  induction 1 as [|n l r HR _ IH|n l sub r NR HG Hs _ _ IH|n l r NR NG _ IH];
    intros Hin Hnr Hg.
  - destruct Hin.
  - destruct Hin as [->|Hin]; [contradiction|].
    destruct (IH Hin Hnr Hg) as (sub & Hs & Hi).
    exists sub. split; [exact Hs|]. apply incl_tl. exact Hi.
  - destruct Hin as [->|Hin].
    + exists sub. split; [exact Hs|]. apply incl_appl, incl_refl.
    + destruct (IH Hin Hnr Hg) as (sub' & Hs' & Hi).
      exists sub'. split; [exact Hs'|]. apply incl_appr. exact Hi.
  - destruct Hin as [->|Hin]; [contradiction|]. auto.
Qed.

Lemma inside_expands (l : list string) (d : string) :
  inside h l d -> forall ds, expands h l ds -> In d ds.
Proof.
  induction 1 as [l d Hin Hd|l g d Hin NR HG _ IH]; intros ds He.
  - eapply expands_keeps_drawing; eassumption.
  - destruct (expands_keeps_group l ds g He Hin NR HG) as (sub & Hs & Hi).
    apply Hi, IH, Hs.
Qed.

End Reach.

(** X10. What [getDrawings] returns holds exactly the drawing nodes reached
    from its argument: the drawing nodes of the list itself and those of the
    sub-nodes of its groups, through any depth of nesting.  So a drawing
    under a node that is neither a drawing nor a group is not reached
    through that node, and the result is empty exactly when no drawing is
    reached. *)
Theorem collected_iff_reached (h : Host) (fuel : nat) (l ds : list string) :
  getDrawings h fuel l = Some ds ->
  (forall d, In d ds <-> inside h l d)
  /\ (ds = [] <-> forall d, ~ inside h l d).
Proof.
  intros Hg. pose proof (getDrawings_expands h fuel l ds Hg) as He.
  assert (Hiff : forall d, In d ds <-> inside h l d).
  { intros d. split.
    - apply (expands_inside h l ds He).
    - intros Hin. exact (inside_expands h l d Hin ds He). }
  split; [exact Hiff|]. split.
  - intros -> d Hin. apply Hiff in Hin. destruct Hin.
  - intros Hno. destruct ds as [|d ds']; [reflexivity|].
    exfalso. apply (Hno d), Hiff. left. reflexivity.
Qed.

(** The theorem at the selection of the demonstration scene: [Top/G/N/D4]
    is reached through two groups, the peg is not collected. *)
Lemma demo_collects_what_it_reaches :
  In "Top/G/N/D4"
     ["Top/A"; "Top/B"; "Top/E"; "Top/L"; "Top/G/D1"; "Top/G/D2";
      "Top/G/N/D4"; "Top/G/N/D5"; "Top/G/D3"]
  /\ ~ inside Demo.host (selection_selectedNodes Demo.host) "Top/Peg".
Proof.
  destruct (collected_iff_reached Demo.host 3 (selection_selectedNodes Demo.host)
              ["Top/A"; "Top/B"; "Top/E"; "Top/L"; "Top/G/D1"; "Top/G/D2";
               "Top/G/N/D4"; "Top/G/N/D5"; "Top/G/D3"] eq_refl) as [Hiff _].
  split.
  - apply Hiff. eapply inside_group with (g := "Top/G");
      [simpl; auto 10|discriminate|reflexivity|].
    eapply inside_group with (g := "Top/G/N"); [simpl; auto|discriminate|reflexivity|].
    apply inside_here; [simpl; auto|reflexivity].
  - intros Hin. apply Hiff in Hin. simpl in Hin.
    repeat (destruct Hin as [Hin|Hin]; [discriminate Hin|]). exact Hin.
Defined.

(** ** How collections compose *)

(** X11. Collecting from a concatenation is collecting from both parts and
    concatenating, in that order; and collecting from a single group node
    is collecting from its sub-nodes one level of nesting deeper: selecting
    a group is the same as selecting its sub-nodes in their order. *)
Theorem collecting_composes (h : Host) (fuel : nat) (l1 l2 : list string) :
  getDrawings h (S fuel) (l1 ++ l2)
  = match getDrawings h (S fuel) l1, getDrawings h (S fuel) l2 with
    | Some r1, Some r2 => Some (r1 ++ r2)
    | _, _ => None
    end
  /\ forall g, node_type h g = "GROUP" ->
       getDrawings h (S fuel) [g] = getDrawings h fuel (node_subNodes h g).
Proof.
  split; [apply getDrawings_app|].
  intros g Hg. rewrite getDrawings_group by exact Hg.
  destruct (getDrawings h fuel (node_subNodes h g)); simpl; [rewrite app_nil_r|]; reflexivity.
Qed.

Section PlainSelection.

Variable h : Host.

Lemma getDrawings_without_groups (f : nat) (l : list string) :
  (forall n, In n l -> node_type h n <> "GROUP") ->
  getDrawings h (S f) l = Some (List.filter (fun n => node_type h n === "READ") l).
Proof.
  induction l as [|n l IH]; intros H; [reflexivity|].
  rewrite getDrawings_cons, IH by (intros n' Hn'; apply H; right; exact Hn').
  simpl. destruct (node_type h n === "READ"); [reflexivity|].
  destruct (String.eqb_spec (node_type h n) "GROUP") as [E|_]; [|reflexivity].
  exfalso. exact (H n (or_introl eq_refl) E).
Qed.

End PlainSelection.

(** X12. From a list without group nodes, [getDrawings] returns the drawing
    nodes of the list, in order, whatever the positive fuel: drawings alone
    come back unchanged and every other node is dropped.  When the selection
    has no group and no drawing, for instance only pegs, the run shows the
    dialog and does nothing else. *)
Theorem selection_without_groups (h : Host) (fuel : nat) (l : list string) (s : State) :
  (forall n, In n l -> node_type h n <> "GROUP") ->
  getDrawings h (S fuel) l = Some (List.filter (fun n => node_type h n === "READ") l)
  /\ (Forall (fun n => node_type h n = "READ") l -> getDrawings h (S fuel) l = Some l)
  /\ (selection_selectedNodes h = l ->
      (forall n, In n l -> node_type h n <> "READ") ->
      ANM_Set_Layer_Pivots_At_Center_Of_Drawings h (S fuel) s
      = Some (emit (MessageBox_information msg_select) s)).
Proof.
  intros Hng. pose proof (getDrawings_without_groups h fuel l Hng) as Hg.
  split; [exact Hg|]. split.
  - intros Hall. apply getDrawings_drawings_only. exact Hall.
  - intros Hsel Hnr. unfold ANM_Set_Layer_Pivots_At_Center_Of_Drawings.
    rewrite Hsel, Hg.
    assert (E : List.filter (fun n => node_type h n === "READ") l = []).
    { clear Hg Hng Hsel. induction l as [|n l IH]; [reflexivity|]. simpl.
      destruct (String.eqb_spec (node_type h n) "READ") as [E|_].
      - exfalso. exact (Hnr n (or_introl eq_refl) E).
      - apply IH. intros n' Hn'. apply Hnr. right. exact Hn'. }
    rewrite E. reflexivity.
Qed.

(** The theorem at a selection of the peg, a drawing and a non-peg node. *)
Lemma selecting_a_peg_and_a_drawing :
  getDrawings Demo.host 1 ["Top/Peg"; "Top/A"; "Top/Kin"] = Some ["Top/A"].
Proof.
  destruct (selection_without_groups Demo.host 0 ["Top/Peg"; "Top/A"; "Top/Kin"] Demo.start)
    as [Hg _].
  - intros n [<-|[<-|[<-|[]]]]; discriminate.
  - rewrite Hg. reflexivity.
Defined.

(** ** The two arithmetic helpers *)

Section Arithmetic.

Lemma add_comm (a b : number) : add a b = add b a.
Proof.
  destruct a as [[]|[]| |sa ma ea], b as [[]|[]| |sb mb eb]; try reflexivity.
  unfold add, SFadd. rewrite (Z.min_comm eb ea), Z.add_comm. reflexivity.
Qed.

Lemma sub_zero_r (a : number) : sub a zero = a.
Proof. destruct a as [[]|[]| |sa ma ea]; reflexivity. Qed.

Lemma sub_diag (a : number) : isFinite a = true -> sub a a = zero.
Proof.
  destruct a as [[]|[]| |sa ma ea]; try discriminate; try reflexivity.
  intros _. unfold sub, SFsub. rewrite Z.min_id.
  rewrite Z.sub_diag. reflexivity.
Qed.

Lemma sub_one_half : sub one half = half.
Proof. reflexivity. Qed.

End Arithmetic.

(** X13. [subtractBFromA] leaves a point unchanged when (0, 0) is
    subtracted, whatever its coordinates (infinities, NaN and -0 included),
    and gives (0, 0) when a point with finite coordinates is subtracted
    from itself. *)
Theorem subtractBFromA_zero_and_self (p : Point2d) :
  subtractBFromA p (mkPoint2d zero zero) = p
  /\ (isFinite (pt_x p) = true -> isFinite (pt_y p) = true ->
      subtractBFromA p p = mkPoint2d zero zero).
Proof.
  destruct p as [x y]. unfold subtractBFromA. cbn [pt_x pt_y]. split.
  - rewrite !sub_zero_r. reflexivity.
  - intros Hx Hy. rewrite !sub_diag by assumption. reflexivity.
Qed.

(** X14. At [t = 0.5], [midPointAt] gives the same point whichever of the
    two corners is passed first. *)
Theorem midPointAt_half_is_symmetric (h : Host) (p1 p2 : Point2d) :
  midPointAt h p1 p2 half = midPointAt h p2 p1 half.
Proof.
  unfold midPointAt. rewrite sub_one_half.
  rewrite (add_comm (mul (pt_x p1) half)), (add_comm (mul (pt_y p1) half)). reflexivity.
Qed.

(** ** The bound of the search and the target *)

Section Bound.

Variables h h' : Host.
Hypothesis same : sameGraph h h'.

Lemma chain_same (n : string) (k : nat) : chain h' n k = chain h n k.
Proof.
  destruct same as (_ & Hs & _). unfold chain, upstream.
  induction k as [|k IH]; simpl; [reflexivity|]. rewrite IH. apply Hs.
Qed.

Lemma nearestPegAt_same (d p : string) (k : nat) :
  nearestPegAt h' d p k <-> nearestPegAt h d p k.
Proof.
  destruct same as (Ht & _). unfold nearestPegAt, skipped.
  rewrite chain_same, Ht.
  split; intros (C & N & T & K);
    (split; [exact C|split; [exact N|split; [exact T|]]]);
    intros i Hi; destruct (K i Hi) as [K1 K2]; split.
  - rewrite chain_same in K1. exact K1.
  - rewrite chain_same, Ht in K2. exact K2.
  - rewrite chain_same. exact K1.
  - rewrite chain_same, Ht. exact K2.
Qed.

Lemma onParentPeg_same (d : string) :
  onParentPeg (canAnimate h' d) (useDrawingPivot h' d)
  = onParentPeg (canAnimate h d) (useDrawingPivot h d).
Proof.
  destruct same as (_ & _ & Hb & Htx). unfold canAnimate, useDrawingPivot.
  rewrite Hb, Htx. reflexivity.
Qed.

End Bound.

(** X15. The bound of the search matters only by being large enough.  Take
    two hosts with the same node types, links and drawing attributes, the
    second reporting a bound for [d] at least as large as the first.  A
    target resolved for [d] on the first is resolved on the second, and is
    the same node.  A drawing left without target on the first and given
    target [p] on the second had its first peg [p] more than the first
    bound's number of non-peg nodes above it. *)
Theorem larger_bound_keeps_the_target (h h' : Host) (d p : string) :
  sameGraph h h' ->
  (searchBound h d <= searchBound h' d)%nat ->
  (resolvePivotNode h d = Some p -> resolvePivotNode h' d = Some p)
  /\ (resolvePivotNode h d = None -> resolvePivotNode h' d = Some p ->
      exists k, nearestPegAt h d p k /\ (searchBound h d < k)%nat).
Proof.
  intros Hs Hb. pose proof (onParentPeg_same h h' Hs d) as Ho.
  destruct (onParentPeg (canAnimate h d) (useDrawingPivot h d)) eqn:Hon.
  - split.
    + intros Hr. destruct (resolve_on_peg h d p Hon Hr) as (k & Hk & Hle).
      apply (resolve_finds h' d p k Ho); [|unfold searchBound in *; lia].
      apply (nearestPegAt_same h h' Hs). exact Hk.
    + intros Hnone Hr'.
      destruct (resolve_on_peg h' d p Ho Hr') as (k & Hk & _).
      apply (nearestPegAt_same h h' Hs) in Hk.
      exists k. split; [exact Hk|].
      destruct (Nat.le_gt_cases k (searchBound h d)) as [Hle|Hgt]; [|exact Hgt].
      rewrite (resolve_finds h d p k Hon Hk Hle) in Hnone. discriminate Hnone.
  - split.
    + intros Hr. rewrite (resolve_on_drawing h d Hon) in Hr.
      rewrite (resolve_on_drawing h' d Ho). exact Hr.
    + intros Hnone. rewrite (resolve_on_drawing h d Hon) in Hnone. discriminate Hnone.
Qed.

(** The theorem at [Top/B], on the demonstration scene and on the scene that
    reports one sub-node more. *)
Lemma Top_B_keeps_its_peg_under_a_larger_bound :
  resolvePivotNode Wide.host "Top/B" = Some "Top/Peg".
Proof.
  destruct (larger_bound_keeps_the_target Demo.host Wide.host "Top/B" "Top/Peg") as [Hk _].
  - repeat split.
  - vm_compute. lia.
  - apply Hk. reflexivity.
Defined.

(** ** The order of the selection *)

Section Order.

Lemma lastWrite_NoDup (k : string * string) (ws : list ((string * string) * number)) :
  List.NoDup (map fst ws) -> forall v, lastWrite k ws = Some v <-> In (k, v) ws.
Proof.
  induction ws as [|[k' v'] ws IH]; intros Hnd v.
  - simpl. split; [discriminate|intros []].
  - cbn [map fst] in Hnd. apply List.NoDup_cons_iff in Hnd as [Hnotin Hnd].
    specialize (IH Hnd). cbn [lastWrite].
    destruct (lastWrite k ws) as [v0|] eqn:El.
    + split.
      * intros [= ->]. right. apply IH. reflexivity.
      * intros [E|Hin].
        -- injection E as -> ->. exfalso. apply Hnotin.
           apply (in_map fst ws (k, v0)). apply IH. reflexivity.
        -- apply IH in Hin. exact Hin.
    + destruct (decide (k' = k)) as [->|Hne].
      * split.
        -- intros [= ->]. left. reflexivity.
        -- intros [E|Hin]; [injection E as ->; reflexivity|].
           apply IH in Hin. discriminate Hin.
      * split; [discriminate|].
        intros [E|Hin]; [injection E as E1 E2; contradiction|].
        apply IH in Hin. discriminate Hin.
Qed.

Lemma lastWrite_perm (k : string * string) (ws ws' : list ((string * string) * number)) :
  Permutation ws ws' -> List.NoDup (map fst ws) -> lastWrite k ws = lastWrite k ws'.
Proof.
  intros P Hnd.
  assert (Hnd' : List.NoDup (map fst ws')).
  { eapply Permutation_NoDup; [|exact Hnd]. apply Permutation_map. exact P. }
  destruct (lastWrite k ws) as [v|] eqn:E, (lastWrite k ws') as [v'|] eqn:E'.
  - apply (lastWrite_NoDup k ws Hnd) in E.
    apply (Permutation_in _ P) in E. apply (lastWrite_NoDup k ws' Hnd') in E. congruence.
  - apply (lastWrite_NoDup k ws Hnd) in E.
    apply (Permutation_in _ P) in E. apply (lastWrite_NoDup k ws' Hnd') in E. congruence.
  - apply (lastWrite_NoDup k ws' Hnd') in E'.
    apply (Permutation_in _ (Permutation_sym P)) in E'.
    apply (lastWrite_NoDup k ws Hnd) in E'. congruence.
  - reflexivity.
Qed.

End Order.

(** X16. When the resolved pivot of a node depends on that node's own
    [pivot.x] and [pivot.y] only, and no attribute is written by two
    drawings of the batch (no two drawings that get a pivot share a target),
    the attributes after the batch do not depend on the order in which the
    drawings are processed. *)
Theorem order_is_irrelevant_without_shared_targets
    (h : Host) (ds ds' : list string) (s : State) :
  pivotIsLocal h ->
  Permutation ds ds' ->
  List.NoDup (map fst (flat_map (turnWrites h) ds)) ->
  st_attrs (fold_left (processDrawing h) ds s) = st_attrs (fold_left (processDrawing h) ds' s).
Proof.
  intros Hl P Hnd. rewrite !(st_attrs_batch_local h Hl).
  apply map_eq. intros k. rewrite !lookup_applyWrites.
  rewrite (lastWrite_perm k _ (flat_map (turnWrites h) ds')); [reflexivity| |exact Hnd].
  apply Permutation_flat_map. exact P.
Qed.

(** The theorem at [Top/A] and [Top/B] of the demonstration scene, whose
    targets are [Top/A] and [Top/Peg]. *)
Lemma Top_A_and_Top_B_in_either_order :
  st_attrs (fold_left (processDrawing Demo.host) ["Top/A"; "Top/B"] Demo.start)
  = st_attrs (fold_left (processDrawing Demo.host) ["Top/B"; "Top/A"] Demo.start).
Proof.
  apply (order_is_irrelevant_without_shared_targets Demo.host).
  - intros m m' n fr Hx Hy. simpl. unfold Demo.pivot_of, Demo.attr_or_zero.
    rewrite Hx, Hy. reflexivity.
  - apply perm_swap.
  - vm_compute map.
    repeat (apply List.NoDup_cons; [simpl; intuition discriminate|]). apply List.NoDup_nil.
Defined.
